(** * EnviormentScripts: the recursive copy and its fan-out/join orchestration

    A shallow embedding of the three Go programs of the repository
    ([main.go], [enviorments2remote.go] and the earlier sequential variant)
    over a small model of the file system they drive through the Go standard
    library ([os.Lstat], [os.MkdirAll], [os.Open], [os.Create], [io.Copy],
    [filepath.Walk]).

    Conventions of the model:
    - a path is the list of its components from the root, already cleaned
      ([filepath.Clean]); [filepath.Join] appends components and
      [filepath.Rel] strips a base;
    - a file system maps paths to nodes; only regular files and directories
      are represented (symbolic links and special files are outside the
      model);
    - a mode is the permission part of a Go [FileMode]; the process is the
      owner of every node and is not the super-user, so the owner bits
      decide every access;
    - [umask] and [iofault] are part of the world but no operation changes
      them; [iofault] gives, per file, the number of bytes after which a
      transfer touching that file fails. *)

From stdpp Require Import gmap strings list sorting.
From Stdlib Require Import ZArith NArith Strings.Byte Strings.Ascii.

Local Open Scope string_scope.
Local Open Scope list_scope.

(** ** Paths *)

Abbreviation path := (list string).

(** [filepath.Join dest rel] on cleaned component lists. *)
Definition Join (p rel : path) : path := p ++ rel.

(** [filepath.Dir]: everything but the last component. *)
Definition parent (p : path) : path := removelast p.

(** [filepath.Base]: the last component; the root is its own base. *)
Definition Base (p : path) : string := default "/" (last p).

(** [p] and [q] lie on one branch of the tree. *)
Definition comparable (p q : path) : Prop := p `prefix_of` q ∨ q `prefix_of` p.


(** ** Nodes, worlds, errors *)

Inductive node : Type :=
| File (mode : N) (data : list byte)
| Dir (mode : N).

Definition node_mode (n : node) : N :=
  match n with File m _ => m | Dir m => m end.

Definition node_is_dir (n : node) : bool :=
  match n with File _ _ => false | Dir _ => true end.

Record world : Type := World {
  files : gmap path node;
  iofault : gmap path nat;
  umask : N
}.

Definition with_files (w : world) (m : gmap path node) : world :=
  {| files := m; iofault := iofault w; umask := umask w |}.

Inductive errno : Type := ENOENT | EACCES | ENOTDIR | EISDIR | EEXIST | EIO.

(** Go's [*fs.PathError], and the error of [filepath.Rel]. *)
Inductive error : Type :=
| PathError (op : string) (p : path) (eno : errno)
| RelError (base targ : path).

Inductive result (A : Type) : Type :=
| Ok (a : A)
| Err (e : error).
Arguments Ok {A} a.
Arguments Err {A} e.

Record FileInfo : Type := { IsDir : bool; Mode : N }.

(** The [nil] [FileInfo] that [Walk] hands over together with an error. *)
Definition nilFileInfo : FileInfo := {| IsDir := false; Mode := 0 |}.

Definition info_of (n : node) : FileInfo :=
  {| IsDir := node_is_dir n; Mode := node_mode n |}.

Global Instance byte_eq_dec : EqDecision byte := Byte.byte_eq_dec.
Global Instance node_eq_dec : EqDecision node.
Proof. solve_decision. Defined.
Global Instance errno_eq_dec : EqDecision errno.
Proof. solve_decision. Defined.
Global Instance error_eq_dec : EqDecision error.
Proof. solve_decision. Defined.

(** Owner permission bits: read 0o400, write 0o200, search/execute 0o100. *)
Definition perm_r (m : N) : bool := N.testbit m 8.
Definition perm_w (m : N) : bool := N.testbit m 7.
Definition perm_x (m : N) : bool := N.testbit m 6.

(** 0o755 and 0o666 *)
Definition mode_0755 : N := 493.
Definition mode_0666 : N := 438.

(** ** The io monad: Go statements acting on the world *)

Definition io (A : Type) : Type := world → A * world.

Definition ret {A} (a : A) : io A := λ w, (a, w).

Definition bind {A B} (m : io A) (k : A → io B) : io B :=
  λ w, let '(a, w') := m w in k a w'.

Declare Scope io_scope.
Delimit Scope io_scope with io.
Notation "'do' x <- m ; k" := (bind m (λ x, k))
  (at level 10, x name, m at level 100, k at level 200) : io_scope.
Local Open Scope io_scope.

(** ** System calls *)

(** Path resolution: walk [rest] below [cur]; every directory on the way
    must be searchable. *)
Fixpoint namei (m : gmap path node) (cur rest : path) : errno + node :=
  match m !! cur with
  | None => inl ENOENT
  | Some n =>
      match rest with
      | [] => inr n
      | c :: rest' =>
          match n with
          | File _ _ => inl ENOTDIR
          | Dir mode =>
              if perm_x mode then namei m (cur ++ [c]) rest' else inl EACCES
          end
      end
  end.

Definition lstat (w : world) (p : path) : result FileInfo :=
  match namei (files w) [] p with
  | inl eno => Err (PathError "lstat" p eno)
  | inr n => Ok (info_of n)
  end.

(** [os.Lstat] and [os.Stat] coincide without symbolic links, up to the
    operation named in the error. *)
Definition Lstat (p : path) : io (result FileInfo) := λ w, (lstat w p, w).

Definition Stat (p : path) : io (result FileInfo) := λ w,
  (match namei (files w) [] p with
   | inl eno => Err (PathError "stat" p eno)
   | inr n => Ok (info_of n)
   end, w).

(** [os.IsNotExist] *)
Definition IsNotExist {A} (r : result A) : bool :=
  match r with
  | Err (PathError _ _ ENOENT) => true
  | _ => false
  end.

(** The name of [k] inside directory [d], when [k] is a direct child. *)
Definition child_of (d k : path) : option string :=
  match reverse k with
  | [] => None
  | n :: rd => if decide (reverse rd = d) then Some n else None
  end.

(** The entries of directory [d], in lexical order. *)
Definition children (m : gmap path node) (d : path) : list string :=
  merge_sort String.le (omap (child_of d) (map_to_list m).*1).

(** [readDirNames] of path/filepath: open the directory, read all names,
    sort them. *)
Definition readDirNames (p : path) : io (result (list string)) := λ w,
  (match namei (files w) [] p with
   | inl eno => Err (PathError "open" p eno)
   | inr (File _ _) => Err (PathError "readdirent" p ENOTDIR)
   | inr (Dir mode) =>
       if perm_r mode then Ok (children (files w) p)
       else Err (PathError "open" p EACCES)
   end, w).

(** [os.Mkdir]: the parent must resolve to a searchable, writable
    directory and the name must be free; the new directory gets
    [perm &^ umask]. *)
Definition Mkdir (p : path) (perm : N) : io (option error) := λ w,
  match p with
  | [] => (Some (PathError "mkdir" p EEXIST), w)
  | _ =>
      match namei (files w) [] (parent p) with
      | inl eno => (Some (PathError "mkdir" p eno), w)
      | inr (File _ _) => (Some (PathError "mkdir" p ENOTDIR), w)
      | inr (Dir pm) =>
          if negb (perm_x pm) then (Some (PathError "mkdir" p EACCES), w)
          else match files w !! p with
               | Some _ => (Some (PathError "mkdir" p EEXIST), w)
               | None =>
                   if perm_w pm
                   then (None, with_files w (<[p := Dir (N.ldiff perm (umask w))]> (files w)))
                   else (Some (PathError "mkdir" p EACCES), w)
               end
      end
  end.

(** [os.MkdirAll], by recursion on the reversed path (last component
    first), as the library recurses on the parent. *)
Fixpoint MkdirAll_rec (rp : list string) (perm : N) : io (option error) :=
  let p := reverse rp in
  do r <- Stat p ;
  match r with
  | Ok dir =>
      if IsDir dir then ret None
      else ret (Some (PathError "mkdir" p ENOTDIR))
  | Err _ =>
      do err <- match rp with
             | [] => ret None
             | _ :: rparent => MkdirAll_rec rparent perm
             end ;
      match err with
      | Some e => ret (Some e)
      | None =>
          do err <- Mkdir p perm ;
          match err with
          | None => ret None
          | Some e =>
              do r1 <- Lstat p ;
              match r1 with
              | Ok dir => if IsDir dir then ret None else ret (Some e)
              | Err _ => ret (Some e)
              end
          end
      end
  end.

Definition MkdirAll (p : path) (perm : N) : io (option error) :=
  MkdirAll_rec (reverse p) perm.

(** [os.Open]: read-only; the handle is the path of the opened file. *)
Definition Open (p : path) : io (result path) := λ w,
  (match namei (files w) [] p with
   | inl eno => Err (PathError "open" p eno)
   | inr n =>
       if perm_r (node_mode n) then Ok p else Err (PathError "open" p EACCES)
   end, w).

(** [os.Create]: [O_RDWR|O_CREATE|O_TRUNC] with mode 0o666; an existing
    file is truncated and keeps its mode. *)
Definition Create (p : path) : io (result path) := λ w,
  match p with
  | [] => (Err (PathError "open" p EISDIR), w)
  | _ =>
      match namei (files w) [] (parent p) with
      | inl eno => (Err (PathError "open" p eno), w)
      | inr (File _ _) => (Err (PathError "open" p ENOTDIR), w)
      | inr (Dir pm) =>
          if negb (perm_x pm) then (Err (PathError "open" p EACCES), w)
          else match files w !! p with
               | Some (Dir _) => (Err (PathError "open" p EISDIR), w)
               | Some (File mode _) =>
                   if perm_r mode && perm_w mode
                   then (Ok p, with_files w (<[p := File mode []]> (files w)))
                   else (Err (PathError "open" p EACCES), w)
               | None =>
                   if perm_w pm
                   then (Ok p, with_files w
                           (<[p := File (N.ldiff mode_0666 (umask w)) []]> (files w)))
                   else (Err (PathError "open" p EACCES), w)
               end
      end
  end.

(** The number of bytes a transfer between the two files moves before an
    I/O fault stops it, if one does. *)
Definition fault_limit (w : world) (dst src : path) : option (nat * error) :=
  match iofault w !! src, iofault w !! dst with
  | None, None => None
  | Some r, None => Some (r, PathError "read" src EIO)
  | None, Some k => Some (k, PathError "write" dst EIO)
  | Some r, Some k =>
      if decide (r ≤ k)%nat then Some (r, PathError "read" src EIO)
      else Some (k, PathError "write" dst EIO)
  end.

(** [io.Copy destFile srcFile]: the bytes of the source, as they are when
    the copy runs, are written over the (just truncated) destination; a
    fault leaves the bytes transferred so far. *)
Definition Copy (dst src : path) : io (option error) := λ w,
  match files w !! src with
  | Some (File _ data) =>
      let '(n, err) :=
        match fault_limit w dst src with
        | Some (k, e) => if decide (k < length data)%nat then (k, Some e) else (length data, None)
        | None => (length data, None)
        end in
      match files w !! dst with
      | Some (File dmode _) =>
          (err, with_files w (<[dst := File dmode (take n data)]> (files w)))
      | _ => (Some (PathError "write" dst EIO), w)
      end
  | Some (Dir _) => (Some (PathError "read" src EISDIR), w)
  | None => (Some (PathError "read" src EIO), w)
  end.

(** [filepath.Rel base targ] for a target below its base; the error arm
    stands for the cases in which Go cannot relate the two paths. *)
Definition Rel (base targ : path) : result path :=
  if decide (base `prefix_of` targ) then Ok (drop (length base) targ)
  else Err (RelError base targ).

(** ** The walk function of [copyDirectory]

    The closure handed to [filepath.Walk]; it is the same text in the three
    programs. *)
Definition walkFn (src dest : path) (pth : path) (info : FileInfo)
    (err : option error) : io (option error) :=
  match err with
  | Some e => ret (Some e)
  | None =>
      match Rel src pth with
      | Err e => ret (Some e)
      | Ok relPath =>
          let destPath := Join dest relPath in
          if IsDir info then MkdirAll destPath (Mode info)
          else
            (* Copy file contents. *)
            do r <- Open pth ;
            match r with
            | Err e => ret (Some e)
            | Ok srcFile =>
                do r <- Create destPath ;
                match r with
                | Err e => ret (Some e)
                | Ok destFile => Copy destFile srcFile
                end
            end
      end
  end.

(** ** [filepath.Walk] as a machine

    [Walk] recurses through the tree; the machine keeps the recursion as a
    stack of frames, one per directory entered, each with the names not yet
    visited.  One step visits one entry: [Lstat], [readDirNames] for a
    directory, and the walk function.  The walk function of this program
    never answers [SkipDir] or [SkipAll], which the machine leaves out. *)

Definition WalkFunc : Type := path → FileInfo → option error → io (option error).

Inductive walk_state : Type :=
| WStart
| WFrames (stk : list (path * list string))
| WReturn (err : option error).

(** A call of [walk] has returned [err] to the loop of its caller: a
    non-nil error is returned further up, and ends the walk; otherwise the
    loop goes on with the names that are left. *)
Definition walk_returns (err : option error) (stk : list (path * list string))
    : walk_state :=
  match err with
  | Some e => WReturn (Some e)
  | None => WFrames stk
  end.

Definition visit (fn : WalkFunc) (p : path) (stk : list (path * list string))
    : io walk_state :=
  do r <- Lstat p ;
  match r with
  | Err e =>
      do err1 <- fn p nilFileInfo (Some e) ;
      ret (walk_returns err1 stk)
  | Ok info =>
      if IsDir info then
        do names <- readDirNames p ;
        do err1 <- fn p info (match names with Err e => Some e | Ok _ => None end) ;
        match names, err1 with
        | Ok ns, None => ret (WFrames ((p, ns) :: stk))
        | _, _ => ret (walk_returns err1 stk)
        end
      else
        do err1 <- fn p info None ;
        ret (walk_returns err1 stk)
  end.

Definition walk_step (fn : WalkFunc) (root : path) (st : walk_state) : io walk_state :=
  match st with
  | WStart => visit fn root []
  | WFrames [] => ret (WReturn None)
  | WFrames ((d, []) :: stk) => ret (WFrames stk)
  | WFrames ((d, n :: ns) :: stk) => visit fn (d ++ [n]) ((d, ns) :: stk)
  | WReturn err => ret (WReturn err)
  end.

(** [n] steps of the walk. *)
Fixpoint walk_iter (fn : WalkFunc) (root : path) (n : nat) (st : walk_state)
    : io walk_state :=
  match n with
  | O => ret st
  | S n' => do st' <- walk_step fn root st ; walk_iter fn root n' st'
  end.

Definition walk_result (st : walk_state) : option (option error) :=
  match st with
  | WReturn err => Some err
  | _ => None
  end.

(** [filepath.Walk root fn], run for at most [fuel] steps: [None] when the
    walk has not returned within the fuel. *)
Definition Walk (fuel : nat) (root : path) (fn : WalkFunc) : io (option (option error)) :=
  do st <- walk_iter fn root fuel WStart ;
  ret (walk_result st).

(** ** What the programs print *)

Inductive line : Type :=
| PromptDirectory
| PromptSolution
| MsgNoDirectory
| MsgFailSolutions (e : error)
| MsgFailSolution (e : error)
| MsgHangTight
| MsgFailEnv (envDirName : string) (e : error)
| MsgStillCooking (envDirName : string)
| MsgStillCookingPlain
| MsgErrorCopying (src dest : path) (e : error)
| MsgFailCopy (envDirPath : path) (e : error)
| MsgCompleted.

Global Instance line_eq_dec : EqDecision line.
Proof. solve_decision. Defined.

Definition render_path (p : path) : string :=
  match p with
  | [] => "/"
  | _ => String.concat "" (map (λ c, "/" +:+ c) p)
  end.

Definition render_errno (e : errno) : string :=
  match e with
  | ENOENT => "no such file or directory"
  | EACCES => "permission denied"
  | ENOTDIR => "not a directory"
  | EISDIR => "is a directory"
  | EEXIST => "file exists"
  | EIO => "input/output error"
  end.

Definition render_error (e : error) : string :=
  match e with
  | PathError op p eno => op +:+ " " +:+ render_path p +:+ ": " +:+ render_errno eno
  | RelError base targ =>
      "Rel: can't make " +:+ render_path targ +:+ " relative to " +:+ render_path base
  end.

(** The text of each message, as the format strings of the programs give
    it (without the final newline). *)
Definition render (l : line) : string :=
  match l with
  | PromptDirectory =>
      "Enter the directory name you wish to copy. If it's not in the current directory you run this script from, it will need the absolute path: "
  | PromptSolution => "Enter the solution name for your outer shell directory: "
  | MsgNoDirectory =>
      "The specified directory does not exist. Did you use the absolute path?"
  | MsgFailSolutions e => "Failed to create 'Solutions' directory: " +:+ render_error e
  | MsgFailSolution e => "Failed to create solution directory: " +:+ render_error e
  | MsgHangTight => "Hang tight while your environment bakes in the oven for a bit..."
  | MsgFailEnv n e =>
      "Failed to create environment directory '" +:+ n +:+ "': " +:+ render_error e
  | MsgStillCooking n => "Still cooking... setting up " +:+ n
  | MsgStillCookingPlain => "Still cooking..."
  | MsgErrorCopying src dest e =>
      "Error copying directory from '" +:+ render_path src +:+ "' to '"
        +:+ render_path dest +:+ "': " +:+ render_error e
  | MsgFailCopy d e =>
      "Failed to copy directory to '" +:+ render_path d +:+ "': " +:+ render_error e
  | MsgCompleted => "Environment setup completed successfully!"
  end.

(** ** What the programs share: the start of [main] *)

(** List of environments. *)
Definition environments : list string :=
  ["SANDBOX_"; "DEV_"; "STAGE_"; "PREPROD_"; "PROD_"].

(** [getDesktopSolutionsPath], for the home directory [os.UserHomeDir]
    answers. *)
Definition getDesktopSolutionsPath (homeDir : path) : path :=
  Join homeDir ["Desktop"; "Solutions"].

Definition envDirName_of (env : string) (directoryName : path) : string :=
  env +:+ Base directoryName.

Definition envDirPath_of (solutionPath : path) (env : string) (directoryName : path) : path :=
  Join solutionPath [envDirName_of env directoryName].

(** [main] up to the list of environments: the two prompts, the check of
    the input directory, the Solutions and the solution directory.  The
    answer is what was printed and the solution path, or [None] when
    [main] returned early. *)
Definition main_prefix (homeDir directoryName : path) (solutionName : string)
    : io (list line * option path) :=
  let prompts := [PromptDirectory; PromptSolution] in
  (* Check if the input directory exists. *)
  do r <- Stat directoryName ;
  if IsNotExist r then ret (prompts ++ [MsgNoDirectory], None)
  else
    (* Create the "Solutions" directory if it doesn't exist. *)
    let solutionsPath := getDesktopSolutionsPath homeDir in
    do r <- Stat solutionsPath ;
    do err <- (if IsNotExist r then MkdirAll solutionsPath mode_0755 else ret None) ;
    match err with
    | Some e => ret (prompts ++ [MsgFailSolutions e], None)
    | None =>
        (* Create the solution directory. *)
        let solutionPath := Join solutionsPath [solutionName] in
        do err <- MkdirAll solutionPath mode_0755 ;
        match err with
        | Some e => ret (prompts ++ [MsgFailSolution e], None)
        | None => ret (prompts ++ [MsgHangTight], Some solutionPath)
        end
    end.

(** ** main.go and enviorments2remote.go: goroutines and a WaitGroup

    A configuration holds the file system, the output, the WaitGroup
    counter, the program point of [main] and one entry per goroutine
    started.  A step is taken by [main] or by one goroutine; a goroutine
    visits one entry of the tree per step.  enviorments2remote.go has the
    same orchestration up to the completion message and then goes on to
    the optional repository set-up, which [Remote] follows. *)
Module Concurrent.

(** Program points of [copyDirectory src dest wg]: inside [filepath.Walk];
    the walk has returned [err] and only the deferred [wg.Done] is left;
    returned. *)
Inductive task_pc : Type :=
| TWalk (ws : walk_state)
| TDefer (err : option error)
| TExit (err : option error).

Record task : Type := Task { t_src : path; t_dest : path; t_pc : task_pc }.

(** Program points of [main]. *)
Inductive main_pc : Type :=
| MStart (homeDir directoryName : path) (solutionName : string)
| MLoop (directoryName solutionPath : path) (envs : list string)
| MAdd (directoryName solutionPath envDirPath : path) (envs : list string)
| MGo (directoryName solutionPath envDirPath : path) (envs : list string)
| MWait
| MFinal
| MExit.

Record config : Type := Config {
  c_world : world;
  c_out : list line;
  c_wg : Z;
  c_panic : bool;
  c_main : main_pc;
  c_pool : list task
}.

Definition init (w : world) (homeDir directoryName : path) (solutionName : string)
    : config :=
  {| c_world := w; c_out := []; c_wg := 0; c_panic := false;
     c_main := MStart homeDir directoryName solutionName; c_pool := [] |}.

(** One step of [copyDirectory]. *)
Definition task_step (t : task) (c : config) : option (task * config) :=
  match t_pc t with
  | TWalk (WReturn err) =>
      (* if err != nil { fmt.Printf("Error copying directory ...") } *)
      let out := match err with
                 | Some e => c_out c ++ [MsgErrorCopying (t_src t) (t_dest t) e]
                 | None => c_out c
                 end in
      Some ({| t_src := t_src t; t_dest := t_dest t; t_pc := TDefer err |},
            {| c_world := c_world c; c_out := out; c_wg := c_wg c;
               c_panic := c_panic c; c_main := c_main c; c_pool := c_pool c |})
  | TWalk ws =>
      let '(ws', w') := walk_step (walkFn (t_src t) (t_dest t)) (t_src t) ws (c_world c) in
      Some ({| t_src := t_src t; t_dest := t_dest t; t_pc := TWalk ws' |},
            {| c_world := w'; c_out := c_out c; c_wg := c_wg c;
               c_panic := c_panic c; c_main := c_main c; c_pool := c_pool c |})
  | TDefer err =>
      (* defer wg.Done(): a negative counter panics *)
      Some ({| t_src := t_src t; t_dest := t_dest t; t_pc := TExit err |},
            {| c_world := c_world c; c_out := c_out c; c_wg := (c_wg c - 1)%Z;
               c_panic := c_panic c || bool_decide (c_wg c - 1 < 0)%Z;
               c_main := c_main c; c_pool := c_pool c |})
  | TExit _ => None
  end.

Definition with_main (c : config) (w : world) (out : list line) (pc : main_pc) : config :=
  {| c_world := w; c_out := out; c_wg := c_wg c; c_panic := c_panic c;
     c_main := pc; c_pool := c_pool c |}.

(** One step of [main]. *)
Definition main_step (c : config) : option config :=
  match c_main c with
  | MStart homeDir directoryName solutionName =>
      let '((out, r), w') := main_prefix homeDir directoryName solutionName (c_world c) in
      Some (with_main c w' (c_out c ++ out)
              (match r with
               | None => MExit
               | Some solutionPath => MLoop directoryName solutionPath environments
               end))
  | MLoop directoryName solutionPath [] =>
      Some (with_main c (c_world c) (c_out c) MWait)
  | MLoop directoryName solutionPath (env :: envs) =>
      let envDirName := envDirName_of env directoryName in
      let envDirPath := Join solutionPath [envDirName] in
      let '(err, w') := MkdirAll envDirPath mode_0755 (c_world c) in
      match err with
      | Some e =>
          (* continue *)
          Some (with_main c w' (c_out c ++ [MsgFailEnv envDirName e])
                  (MLoop directoryName solutionPath envs))
      | None =>
          Some (with_main c w' (c_out c ++ [MsgStillCooking envDirName])
                  (MAdd directoryName solutionPath envDirPath envs))
      end
  | MAdd directoryName solutionPath envDirPath envs =>
      (* wg.Add(1) *)
      Some {| c_world := c_world c; c_out := c_out c; c_wg := (c_wg c + 1)%Z;
              c_panic := c_panic c || bool_decide (c_wg c + 1 < 0)%Z;
              c_main := MGo directoryName solutionPath envDirPath envs;
              c_pool := c_pool c |}
  | MGo directoryName solutionPath envDirPath envs =>
      (* go copyDirectory(directoryName, envDirPath, &wg) *)
      Some {| c_world := c_world c; c_out := c_out c; c_wg := c_wg c;
              c_panic := c_panic c;
              c_main := MLoop directoryName solutionPath envs;
              c_pool := c_pool c ++
                [{| t_src := directoryName; t_dest := envDirPath; t_pc := TWalk WStart |}] |}
  | MWait =>
      (* wg.Wait() returns once the counter is zero *)
      if decide (c_wg c = 0%Z) then Some (with_main c (c_world c) (c_out c) MFinal)
      else None
  | MFinal =>
      Some (with_main c (c_world c) (c_out c ++ [MsgCompleted]) MExit)
  | MExit => None
  end.

Inductive label : Type :=
| LMain
| LTask (i : nat).

(** A panic stops the program, and so does the return of [main]. *)
Definition halted (c : config) : bool :=
  c_panic c || (if c_main c is MExit then true else false).

Definition step (l : label) (c : config) : option config :=
  if halted c then None
  else match l with
       | LMain => main_step c
       | LTask i =>
           t ← c_pool c !! i;
           '(t', c') ← task_step t c;
           Some {| c_world := c_world c'; c_out := c_out c'; c_wg := c_wg c';
                   c_panic := c_panic c'; c_main := c_main c';
                   c_pool := <[i := t']> (c_pool c') |}
       end.

(** Run a schedule. *)
Fixpoint exec (sched : list label) (c : config) : option config :=
  match sched with
  | [] => Some c
  | l :: sched' => c' ← step l c; exec sched' c'
  end.

Definition reachable (c0 c : config) : Prop := ∃ sched, exec sched c0 = Some c.

Definition task_exited (t : task) : bool :=
  if t_pc t is TExit _ then true else false.

Definition task_outcome (t : task) : option (option error) :=
  match t_pc t with
  | TWalk _ => None
  | TDefer err | TExit err => Some err
  end.

(** Goroutines started and not yet returned. *)
Definition live (c : config) : nat :=
  length (filter (λ t, task_exited t = false) (c_pool c)).

(** [main] is past [wg.Wait]. *)
Definition past_join (pc : main_pc) : bool :=
  match pc with
  | MFinal | MExit => true
  | _ => false
  end.

(** The destinations [main] has still to create and dispatch. *)
Definition pending_dests (pc : main_pc) : list path :=
  match pc with
  | MLoop directoryName solutionPath envs =>
      (λ env, envDirPath_of solutionPath env directoryName) <$> envs
  | MAdd directoryName solutionPath envDirPath envs
  | MGo directoryName solutionPath envDirPath envs =>
      envDirPath :: ((λ env, envDirPath_of solutionPath env directoryName) <$> envs)
  | _ => []
  end.

(** The lines with which goroutines report a failed copy. *)
Definition copy_errors (out : list line) : list (path * path * error) :=
  omap (λ l, match l with
             | MsgErrorCopying src dest e => Some (src, dest, e)
             | _ => None
             end) out.

End Concurrent.

(** ** The sequential variant: [copyDirectory] returns its error

    The third program calls [copyDirectory] in the loop itself and prints
    the error it returns.  Its machine has no pool: the call in progress is
    part of the program point of [main]. *)
Module Sequential.

(** [copyDirectory src dest]: the result of [filepath.Walk]. *)
Definition copyDirectory (fuel : nat) (src dest : path) : io (option (option error)) :=
  Walk fuel src (walkFn src dest).

Inductive main_pc : Type :=
| MStart (homeDir directoryName : path) (solutionName : string)
| MLoop (directoryName solutionPath : path) (envs : list string)
| MCall (directoryName solutionPath envDirPath : path) (ws : walk_state)
    (envs : list string)
| MFinal
| MExit.

Record config : Type := Config {
  c_world : world;
  c_out : list line;
  c_main : main_pc
}.

Definition init (w : world) (homeDir directoryName : path) (solutionName : string)
    : config :=
  {| c_world := w; c_out := [];
     c_main := MStart homeDir directoryName solutionName |}.

Definition step (c : config) : option config :=
  match c_main c with
  | MStart homeDir directoryName solutionName =>
      let '((out, r), w') := main_prefix homeDir directoryName solutionName (c_world c) in
      Some {| c_world := w'; c_out := c_out c ++ out;
              c_main := match r with
                        | None => MExit
                        | Some solutionPath =>
                            MLoop directoryName solutionPath environments
                        end |}
  | MLoop directoryName solutionPath [] =>
      Some {| c_world := c_world c; c_out := c_out c; c_main := MFinal |}
  | MLoop directoryName solutionPath (env :: envs) =>
      let envDirName := envDirName_of env directoryName in
      let envDirPath := Join solutionPath [envDirName] in
      let '(err, w') := MkdirAll envDirPath mode_0755 (c_world c) in
      match err with
      | Some e =>
          Some {| c_world := w'; c_out := c_out c ++ [MsgFailEnv envDirName e];
                  c_main := MLoop directoryName solutionPath envs |}
      | None =>
          Some {| c_world := w'; c_out := c_out c ++ [MsgStillCookingPlain];
                  c_main := MCall directoryName solutionPath envDirPath WStart envs |}
      end
  | MCall directoryName solutionPath envDirPath (WReturn err) envs =>
      (* err = copyDirectory(directoryName, envDirPath) has returned *)
      Some {| c_world := c_world c;
              c_out := match err with
                       | Some e => c_out c ++ [MsgFailCopy envDirPath e]
                       | None => c_out c
                       end;
              c_main := MLoop directoryName solutionPath envs |}
  | MCall directoryName solutionPath envDirPath ws envs =>
      let '(ws', w') :=
        walk_step (walkFn directoryName envDirPath) directoryName ws (c_world c) in
      Some {| c_world := w'; c_out := c_out c;
              c_main := MCall directoryName solutionPath envDirPath ws' envs |}
  | MFinal =>
      Some {| c_world := c_world c; c_out := c_out c ++ [MsgCompleted];
              c_main := MExit |}
  | MExit => None
  end.

Fixpoint exec (n : nat) (c : config) : option config :=
  match n with
  | O => Some c
  | S n' => c' ← step c; exec n' c'
  end.

Definition reachable (c0 c : config) : Prop := ∃ n, exec n c0 = Some c.

(** Copies in progress: the call [main] is in, if any. *)
Definition live (c : config) : nat :=
  match c_main c with
  | MCall _ _ _ _ _ => 1
  | _ => 0
  end.

End Sequential.

(** * Vocabulary of the specification *)

Definition pres (w w' : world) : Prop :=
  umask w' = umask w ∧ iofault w' = iofault w ∧
  ∀ q n, files w !! q = Some n → ∃ n', files w' !! q = Some n' ∧ info_of n' = info_of n.

Definition agree (S : path → Prop) (w1 w2 : world) : Prop :=
  umask w1 = umask w2 ∧ iofault w1 = iofault w2 ∧
  ∀ q, S q → files w1 !! q = files w2 !! q.

Definition put (k : path) (v : node) (w : world) : world :=
  with_files w (<[k := v]> (files w)).

(** What [MkdirAll] may change: it adds directories at missing prefixes of
    its argument, and nothing else. *)
Definition mkdir_adds (p : path) (perm : N) (w w' : world) : Prop :=
  ∀ q, files w' !! q = files w !! q ∨
       (q `prefix_of` p ∧ files w !! q = None ∧
        files w' !! q = Some (Dir (N.ldiff perm (umask w)))).

Definition io_pres {A} (m : io A) : Prop := ∀ w, pres w (m w).2.


(** Frames under the root, and names still to visit. *)
Definition ws_under (src : path) (st : walk_state) : Prop :=
  match st with
  | WFrames stk => ∀ d ns, (d, ns) ∈ stk → src `prefix_of` d
  | _ => True
  end.

(** [w'] differs from [w] at most at [P] and at prefixes of [P] that were
    missing in [w]. *)
Definition writes (P : path) (w w' : world) : Prop :=
  ∀ q, files w' !! q = files w !! q ∨ q = P ∨ (q `prefix_of` P ∧ files w !! q = None).


Definition rel_of (src q : path) : path := drop (length src) q.

Definition pending (st : walk_state) (q : path) : Prop :=
  match st with
  | WStart => True
  | WFrames stk => ∃ d ns n, (d, ns) ∈ stk ∧ n ∈ ns ∧ (d ++ [n]) `prefix_of` q
  | WReturn _ => False
  end.

Definition copied (src dest : path) (w0 w : world) (q : path) : Prop :=
  match files w0 !! q with
  | None => True
  | Some (File _ data) => ∃ m, files w !! (dest ++ rel_of src q) = Some (File m data)
  | Some (Dir _) => ∃ m, files w !! (dest ++ rel_of src q) = Some (Dir m)
  end.

Definition tree_wf (src : path) (w : world) : Prop :=
  ∀ q c, src `prefix_of` q → is_Some (files w !! (q ++ [c])) →
         ∃ mode, files w !! q = Some (Dir mode).

Definition only_images (src dest : path) (w0 w : world) : Prop :=
  ∀ x, files w !! x = files w0 !! x ∨
       (∃ r, x = dest ++ r ∧ is_Some (files w0 !! (src ++ r))) ∨
       (x `prefix_of` dest ∧ x ≠ dest ∧ files w0 !! x = None).

(** What holds after any number of steps of a copy from [src] to [dest]
    started in [w0], whether or not it has failed. *)
Definition frame_inv (src dest : path) (w0 : world) (st : walk_state) (w : world) : Prop :=
  pres w0 w ∧ only_images src dest w0 w ∧ ws_under src st.

(** While no error has occurred, every entry of the source that is not
    waiting in a frame has been copied. *)
Definition walk_inv (src dest : path) (w0 : world) (st : walk_state) (w : world) : Prop :=
  frame_inv src dest w0 st w ∧
  match st with
  | WReturn (Some _) => True
  | _ => ∀ q, src `prefix_of` q → ¬ pending st q → copied src dest w0 w q
  end.

(** Every directory the walk is inside of has been made on the other
    side, together with its ancestors. *)
Definition frames_made (src dest : path) (st : walk_state) (w : world) : Prop :=
  match st with
  | WFrames stk =>
      ∀ d ns, (d, ns) ∈ stk →
        (∃ m, files w !! (dest ++ rel_of src d) = Some (Dir m)) ∧
        ∀ x, x `prefix_of` dest ++ rel_of src d → is_Some (files w !! x)
  | _ => True
  end.

Definition is_dir_at (w : world) (p : path) : Prop := ∃ m, files w !! p = Some (Dir m).

(** The directories below [dest] in [w'] are those below [src] in [w]. *)
Definition same_dirs (src dest : path) (w w' : world) : Prop :=
  ∀ r, is_dir_at w' (dest ++ r) ↔ is_dir_at w (src ++ r).

Global Instance comparable_dec (p q : path) : Decision (comparable p q).
Proof. unfold comparable. apply _. Defined.

(** [tree_wf], decided on the entries of the world. *)
Definition tree_wfb (src : path) (w : world) : bool :=
  forallb (λ k, match reverse k with
                | [] => true
                | _ :: rq =>
                    if decide (src `prefix_of` reverse rq)
                    then match files w !! reverse rq with
                         | Some (Dir _) => true
                         | _ => false
                         end
                    else true
                end) (map_to_list (files w)).*1.

(** Nothing exists strictly below [dest]. *)
Definition empty_below (dest : path) (w : world) : Prop :=
  ∀ rel, rel ≠ [] → files w !! (dest ++ rel) = None.

Definition empty_belowb (dest : path) (w : world) : bool :=
  forallb (λ k, bool_decide (¬ (dest `prefix_of` k ∧ k ≠ dest)))
          (map_to_list (files w)).*1.

(** ** Vocabulary for the goroutines *)

(** The report a goroutine has made: source, destination and error of a
    copy that failed. *)
Definition failure_of (t : Concurrent.task) : option (path * path * error) :=
  match Concurrent.task_outcome t with
  | Some (Some e) => Some (Concurrent.t_src t, Concurrent.t_dest t, e)
  | _ => None
  end.

(** What a step of a goroutine does: it visits the next entry of its walk,
    or reports the error the walk has returned, or runs its deferred
    [wg.Done]. *)
Inductive task_step_spec (t : Concurrent.task) (c : Concurrent.config)
    (t' : Concurrent.task) (c1 : Concurrent.config) : Prop :=
| task_walks ws :
    Concurrent.t_pc t = Concurrent.TWalk ws → walk_result ws = None →
    Concurrent.t_pc t' =
      Concurrent.TWalk
        (walk_step (walkFn (Concurrent.t_src t) (Concurrent.t_dest t))
           (Concurrent.t_src t) ws (Concurrent.c_world c)).1 →
    Concurrent.c_world c1 =
      (walk_step (walkFn (Concurrent.t_src t) (Concurrent.t_dest t))
         (Concurrent.t_src t) ws (Concurrent.c_world c)).2 →
    Concurrent.c_out c1 = Concurrent.c_out c →
    Concurrent.c_wg c1 = Concurrent.c_wg c →
    Concurrent.c_panic c1 = Concurrent.c_panic c →
    task_step_spec t c t' c1
| task_reports err :
    Concurrent.t_pc t = Concurrent.TWalk (WReturn err) →
    Concurrent.t_pc t' = Concurrent.TDefer err →
    Concurrent.c_world c1 = Concurrent.c_world c →
    Concurrent.c_out c1 =
      Concurrent.c_out c ++
      match err with
      | Some e => [MsgErrorCopying (Concurrent.t_src t) (Concurrent.t_dest t) e]
      | None => []
      end →
    Concurrent.c_wg c1 = Concurrent.c_wg c →
    Concurrent.c_panic c1 = Concurrent.c_panic c →
    task_step_spec t c t' c1
| task_is_done err :
    Concurrent.t_pc t = Concurrent.TDefer err →
    Concurrent.t_pc t' = Concurrent.TExit err →
    Concurrent.c_world c1 = Concurrent.c_world c →
    Concurrent.c_out c1 = Concurrent.c_out c →
    Concurrent.c_wg c1 = (Concurrent.c_wg c - 1)%Z →
    Concurrent.c_panic c1 =
      Concurrent.c_panic c || bool_decide (Concurrent.c_wg c - 1 < 0)%Z →
    task_step_spec t c t' c1.

(** The WaitGroup counts the goroutines that have not returned, plus the
    one [main] has announced with [wg.Add] and not yet started. *)
Definition wg_inv (c : Concurrent.config) : Prop :=
  Concurrent.c_panic c = false ∧
  Concurrent.c_wg c =
    (Z.of_nat (Concurrent.live c) +
     (if Concurrent.c_main c is Concurrent.MGo _ _ _ _ then 1 else 0))%Z ∧
  (Concurrent.past_join (Concurrent.c_main c) = true → Concurrent.live c = 0%nat) ∧
  (if Concurrent.c_main c is Concurrent.MStart _ _ _ then Concurrent.c_pool c = [] else True).

(** [main] is in or past its loop, for this directory and solution path. *)
Definition main_ok (dn sp : path) (pc : Concurrent.main_pc) : Prop :=
  match pc with
  | Concurrent.MStart _ _ _ => False
  | Concurrent.MLoop dn' sp' envs => dn' = dn ∧ sp' = sp
  | Concurrent.MAdd dn' sp' d envs | Concurrent.MGo dn' sp' d envs => dn' = dn ∧ sp' = sp
  | _ => True
  end.




Definition with_pool (c : Concurrent.config) (pool : list Concurrent.task)
    : Concurrent.config :=
  {| Concurrent.c_world := Concurrent.c_world c; Concurrent.c_out := Concurrent.c_out c;
     Concurrent.c_wg := Concurrent.c_wg c; Concurrent.c_panic := Concurrent.c_panic c;
     Concurrent.c_main := Concurrent.c_main c; Concurrent.c_pool := pool |}.

(** The configuration after the first step of [main]. *)
Definition after_prefix (w : world) (homeDir directoryName : path) (solutionName : string)
    : Concurrent.config :=
  let '((out, r), w') := main_prefix homeDir directoryName solutionName w in
  {| Concurrent.c_world := w'; Concurrent.c_out := out; Concurrent.c_wg := 0;
     Concurrent.c_panic := false;
     Concurrent.c_main := match r with
                          | None => Concurrent.MExit
                          | Some solutionPath =>
                              Concurrent.MLoop directoryName solutionPath environments
                          end;
     Concurrent.c_pool := [] |}.

(** ** Vocabulary for the isolation of the copies *)




(** [w'] is [w] outside the tree below [d]. *)
Definition same_outside (d : path) (w w' : world) : Prop :=
  umask w' = umask w ∧ iofault w' = iofault w ∧
  ∀ q, ¬ d `prefix_of` q → files w' !! q = files w !! q.



(** ** A measure for the walk *)

(** The number of entries at or below [p]. *)
Definition weight (w : world) (p : path) : nat :=
  sum_list_with (λ q, if decide (p `prefix_of` q) then 1 else 0)%nat
                (map_to_list (files w)).*1.

(** What a frame still costs: one step to leave it, and for each name
    left three steps for each entry at or below it. *)
Definition names_cost (w : world) (d : path) (ns : list string) : nat :=
  sum_list_with (λ n, 3 * weight w (d ++ [n]))%nat ns.

Definition stack_cost (w : world) (stk : list (path * list string)) : nat :=
  sum_list_with (λ f, S (names_cost w f.1 f.2)) stk.

(** A bound on the steps a walk in state [st] has left, for a tree that is
    as in [w]. *)
Definition walk_measure (w : world) (root : path) (st : walk_state) : nat :=
  match st with
  | WStart => 3 * weight w root + 3
  | WFrames stk => S (stack_cost w stk)
  | WReturn _ => 0
  end.





(** * Example worlds

    The scenario of the specification: a source [proj] with [a.txt]
    ("hello") and [b/c.txt] ("world"), in the home directory [/home/u], and
    variations of it. *)

Definition bytes (s : string) : list byte := String.list_byte_of_string s.

Definition example_home : path := ["home"; "u"].
Definition example_src : path := ["home"; "u"; "proj"].
Definition example_solution : path := ["home"; "u"; "Desktop"; "Solutions"; "sol"].
Definition example_dest (env : string) : path := example_solution ++ [env +:+ "proj"].

(** Mode 0o700 for the root of the source, 0o644 for the files. *)
Definition source_entries : list (path * node) :=
  [ ([], Dir mode_0755);
    (["home"], Dir mode_0755);
    (["home"; "u"], Dir mode_0755);
    (example_src, Dir 448);
    (example_src ++ ["a.txt"], File 420 (bytes "hello"));
    (example_src ++ ["b"], Dir mode_0755);
    (example_src ++ ["b"; "c.txt"], File 420 (bytes "world")) ].

Definition solution_entries : list (path * node) :=
  [ (["home"; "u"; "Desktop"], Dir mode_0755);
    (["home"; "u"; "Desktop"; "Solutions"], Dir mode_0755);
    (example_solution, Dir mode_0755) ].

Definition world_of (l : list (path * node)) : world :=
  {| files := list_to_map l; iofault := ∅; umask := 18 |}.

(** Before the program has run. *)
Definition example_world : world := world_of source_entries.

(** The destination [SANDBOX_proj] has been made and is empty. *)
Definition ready_world : world :=
  world_of (source_entries ++ solution_entries ++
            [(example_dest "SANDBOX_", Dir mode_0755)]).

(** The destination already holds a directory [old] from an earlier run. *)
Definition merge_world : world :=
  world_of (source_entries ++ solution_entries ++
            [(example_dest "SANDBOX_", Dir mode_0755);
             (example_dest "SANDBOX_" ++ ["old"], Dir mode_0755)]).

(** Reading [a.txt] fails after two bytes. *)
Definition fault_world : world :=
  {| files := files ready_world;
     iofault := {[ example_src ++ ["a.txt"] := 2%nat ]};
     umask := 18 |}.

(** A regular file sits where the [DEV_] destination should be made. *)
Definition blocked_world : world :=
  world_of (source_entries ++ solution_entries ++
            [(example_dest "DEV_", File 420 [])]).


(** All five destinations exist and none is writable. *)
Definition all_readonly_world : world :=
  world_of (source_entries ++ solution_entries ++
            ((λ env, (example_dest env, Dir 365)) <$> environments)).

(** The source is the home directory itself, so the destination
    [/home/u/Desktop/Solutions/sol/SANDBOX_u] lies inside it. *)
Definition nested_dest : path := example_solution ++ ["SANDBOX_u"].

Definition nested_world : world :=
  world_of
    ([ ([], Dir mode_0755);
       (["home"], Dir mode_0755);
       (["home"; "u"], Dir mode_0755);
       (["home"; "u"; "a.txt"], File 420 (bytes "hello")) ]
     ++ solution_entries ++ [(nested_dest, Dir mode_0755)]).

(** Schedules: [main] runs until all goroutines are started, then the
    goroutines run one after the other; in a full run [main] then passes
    [wg.Wait] and prints the final message. *)
Definition dispatch_then_copy (main_steps tasks steps_each : nat) : list Concurrent.label :=
  replicate main_steps Concurrent.LMain
  ++ mjoin ((λ i, replicate steps_each (Concurrent.LTask i)) <$> seq 0 tasks).


Definition example_init (w : world) : Concurrent.config :=
  Concurrent.init w example_home example_src "sol".

(** The configuration a schedule leads to (the initial one if the schedule
    cannot be run). *)
Definition run_of (sched : list Concurrent.label) (w : world) : Concurrent.config :=
  default (example_init w) (Concurrent.exec sched (example_init w)).


(** The directory [b] of the source is read-only (mode 0o555). *)
Definition locked_world : world := put (example_src ++ ["b"]) (Dir 365) ready_world.

(** * enviorments2remote.go: the repositories

    After the completion message the third program asks, for each
    environment, whether a GitHub repository is wanted, creates it through
    the GitHub API and pushes the environment directory with [git].  None
    of this touches the directories through the program itself; what it
    does is ask, send requests and run commands.  The answers typed, the
    token, the answers of the server and the results of the commands are
    not the program's to decide: they are given from outside, in the order
    of the calls, and the program's side is recorded as a log. *)
Module Remote.

(** [cmd.Dir]: a relative name is resolved against the working directory
    of the process, which the program never changes. *)
Inductive workdir : Type :=
| InWorkingDir (name : string)
| AtPath (p : path).

(** [exec.Command name args...] with its [Dir]. *)
Record command : Type := Command {
  cmd_dir : workdir;
  cmd_args : list string
}.

Record request : Type := Request {
  req_method : string;
  req_url : string;
  req_headers : list (string * string);
  req_body : string
}.

Inductive git_step : Type := GitInit | GitAdd | GitCommit | GitRemote | GitPush.

(** The errors [createGitHubRepo] and [setupGitForEnv] return. *)
Inductive failure : Type :=
| TokenMissing
| Transport (e : string)
| BadStatus (code : nat)
| GitFailed (step : git_step) (e : string).

Inductive line : Type :=
| AskRepo (envDirName : string)
| RepoCreated (envDirName : string)
| Pushed (remoteURL : string)
| ErrorCreating (f : failure)
| ErrorSetup (envDirName : string) (f : failure).

Global Instance workdir_eq_dec : EqDecision workdir.
Proof. solve_decision. Defined.
Global Instance command_eq_dec : EqDecision command.
Proof. solve_decision. Defined.
Global Instance git_step_eq_dec : EqDecision git_step.
Proof. solve_decision. Defined.
Global Instance failure_eq_dec : EqDecision failure.
Proof. solve_decision. Defined.
Global Instance remote_line_eq_dec : EqDecision line.
Proof. solve_decision. Defined.

(** What comes from outside: [GITHUB_TOKEN] (empty when unset), what
    [fmt.Scanln] stores at the n-th question (empty at the end of the
    input), what [client.Do] answers to the n-th request (an error, or the
    status code of the response) and what [cmd.Run] answers for the n-th
    command (an error, or nothing). *)
Record outside : Type := Outside {
  token : string;
  answer : nat → string;
  response : nat → string + nat;
  run : nat → option string
}.

(** The log: questions asked, requests sent, commands run, lines printed. *)
Record state : Type := State {
  asked : nat;
  requests : list request;
  commands : list command;
  out : list line
}.

Definition start : state :=
  {| asked := 0; requests := []; commands := []; out := [] |}.

Definition print (l : line) (s : state) : state :=
  {| asked := asked s; requests := requests s; commands := commands s;
     out := out s ++ [l] |}.

(** [strings.ToLower] on the letters A to Z; the program compares the
    result with the one-letter string y only, and no other character has
    that letter as its lower case. *)
Definition lower (c : ascii) : ascii :=
  let n := nat_of_ascii c in
  if (65 <=? n)%nat && (n <=? 90)%nat then ascii_of_nat (n + 32) else c.

Fixpoint ToLower (s : string) : string :=
  match s with
  | EmptyString => EmptyString
  | String c s' => String (lower c) (ToLower s')
  end.

(** Prompt user if they want to create a GitHub repository *)
Definition promptForGitRepo (o : outside) (envDirName : string) (s : state)
    : bool * state :=
  (bool_decide (ToLower (answer o (asked s)) = "y"),
   {| asked := S (asked s); requests := requests s; commands := commands s;
      out := out s ++ [AskRepo envDirName] |}).

Definition quote : string := String (ascii_of_nat 34) EmptyString.

Definition repo_url : string := "https://api.github.com/user/repos".

(** [{"name":"%s", "private":true}] with the name put in as it is. *)
Definition jsonBody (envDirName : string) : string :=
  "{" +:+ quote +:+ "name" +:+ quote +:+ ":" +:+ quote +:+ envDirName +:+ quote
  +:+ ", " +:+ quote +:+ "private" +:+ quote +:+ ":true}".

Definition repo_request (tok envDirName : string) : request :=
  {| req_method := "POST"; req_url := repo_url;
     req_headers := [("Authorization", "token " +:+ tok);
                     ("Content-Type", "application/json")];
     req_body := jsonBody envDirName |}.

(** Create a GitHub repository using GitHub API.  [http.NewRequest] cannot
    fail on the constant method and URL. *)
Definition createGitHubRepo (o : outside) (envDirName : string) (s : state)
    : option failure * state :=
  if decide (token o = "") then (Some TokenMissing, s)
  else
    let s1 := {| asked := asked s;
                 requests := requests s ++ [repo_request (token o) envDirName];
                 commands := commands s; out := out s |} in
    match response o (length (requests s)) with
    | inl e => (Some (Transport e), s1)
    | inr code =>
        (* http.StatusCreated *)
        if decide (code = 201%nat) then (None, print (RepoCreated envDirName) s1)
        else (Some (BadStatus code), s1)
    end.

(** One [cmd.Run]. *)
Definition run_git (o : outside) (step : git_step) (dir : workdir) (args : list string)
    (s : state) : option failure * state :=
  let s1 := {| asked := asked s; requests := requests s;
               commands := commands s ++ [{| cmd_dir := dir; cmd_args := args |}];
               out := out s |} in
  match run o (length (commands s)) with
  | Some e => (Some (GitFailed step e), s1)
  | None => (None, s1)
  end.

(** [if err := ...; err != nil { return ... }] and on to the next statement. *)
Definition and_then (m k : state → option failure * state) (s : state)
    : option failure * state :=
  match m s with
  | (Some f, s1) => (Some f, s1)
  | (None, s1) => k s1
  end.

Definition remoteURL_of (envDirName : string) : string :=
  "https://github.com/AlbersSoftware/" +:+ envDirName +:+ ".git".

(** Setup git for the environment directory *)
Definition setupGitForEnv (o : outside) (envDirName : string) (solutionPath : path)
    : state → option failure * state :=
  let remoteURL := remoteURL_of envDirName in
  (* Initialize Git repository *)
  and_then (run_git o GitInit (InWorkingDir envDirName) ["git"; "init"])
  (* Add all files to staging area *)
  (and_then (run_git o GitAdd (InWorkingDir envDirName) ["git"; "add"; "."])
  (* Commit the changes *)
  (and_then (run_git o GitCommit (InWorkingDir envDirName)
               ["git"; "commit"; "-m"; "first commit for " +:+ envDirName])
  (* Set the remote origin *)
  (and_then (run_git o GitRemote (AtPath (Join solutionPath [envDirName]))
               ["git"; "remote"; "add"; "origin"; remoteURL])
  (* Push to GitHub *)
  (and_then (run_git o GitPush (AtPath (Join solutionPath [envDirName]))
               ["git"; "push"; "-u"; "origin"; "master"])
  (λ s, (None, print (Pushed remoteURL) s)))))).

(** The loop of [main] after the completion message. *)
Fixpoint main_repos (o : outside) (directoryName solutionPath : path)
    (envs : list string) (s : state) : state :=
  match envs with
  | [] => s
  | env :: envs' =>
      let envDirName := envDirName_of env directoryName in
      let '(yes, s1) := promptForGitRepo o envDirName s in
      if yes then
        match createGitHubRepo o envDirName s1 with
        | (Some f, s2) =>
            (* continue *)
            main_repos o directoryName solutionPath envs' (print (ErrorCreating f) s2)
        | (None, s2) =>
            match setupGitForEnv o envDirName solutionPath s2 with
            | (Some f, s3) =>
                main_repos o directoryName solutionPath envs'
                  (print (ErrorSetup envDirName f) s3)
            | (None, s3) => main_repos o directoryName solutionPath envs' s3
            end
        end
      else main_repos o directoryName solutionPath envs' s1
  end.

(** The five commands of [setupGitForEnv], in their order. *)
Definition git_commands (envDirName : string) (solutionPath : path) : list command :=
  [ {| cmd_dir := InWorkingDir envDirName; cmd_args := ["git"; "init"] |};
    {| cmd_dir := InWorkingDir envDirName; cmd_args := ["git"; "add"; "."] |};
    {| cmd_dir := InWorkingDir envDirName;
       cmd_args := ["git"; "commit"; "-m"; "first commit for " +:+ envDirName] |};
    {| cmd_dir := AtPath (Join solutionPath [envDirName]);
       cmd_args := ["git"; "remote"; "add"; "origin"; remoteURL_of envDirName] |};
    {| cmd_dir := AtPath (Join solutionPath [envDirName]);
       cmd_args := ["git"; "push"; "-u"; "origin"; "master"] |} ].

Definition git_steps : list git_step := [GitInit; GitAdd; GitCommit; GitRemote; GitPush].

(** The lines of the log that say a repository was created. *)
Definition created (l : list line) : list string :=
  omap (λ x, match x with RepoCreated n => Some n | _ => None end) l.

(** An example: a token is set, the user wants repositories for the first
    and the third environment, the server refuses the third (the name is
    taken), and [git push] fails for the first. *)
Definition example_outside : outside :=
  {| token := "t0k";
     answer := λ n, match n with 0 => "Y" | 2 => "y" | 3 => "yes" | _ => "n" end;
     response := λ n, match n with 0 => inr 201 | _ => inr 422 end;
     run := λ n, match n with 4 => Some "exit status 128" | _ => None end |}.

(** Another: the user declines every time. *)
Definition declining : outside :=
  {| token := "t0k"; answer := λ _, "n"; response := λ _, inr 201%nat;
     run := λ _, None |}.

End Remote.

(** * The file system operations *)

#[local] Arguments walkFn : simpl never.
#[local] Arguments visit : simpl never.

Lemma namei_agree (m1 m2 : gmap path node) cur rest :
  (∀ q, cur `prefix_of` q → q `prefix_of` cur ++ rest → m1 !! q = m2 !! q) →
  namei m1 cur rest = namei m2 cur rest.
Proof.
  revert cur. induction rest as [|c rest IH]; intros cur H; simpl.
  - rewrite (H cur); [done| done | by rewrite app_nil_r].
  - rewrite (H cur); [| done | by apply prefix_app_r].
    destruct (m2 !! cur) as [[|mode]|]; try done.
    destruct (perm_x mode); [|done].
    apply IH. intros q Hq1 Hq2. apply H.
    + etrans; [|exact Hq1]. by apply prefix_app_r.
    + by rewrite <- app_assoc in Hq2.
Qed.

Lemma namei_inr (m : gmap path node) cur rest n :
  namei m cur rest = inr n →
  m !! (cur ++ rest) = Some n ∧
  ∀ q, cur `prefix_of` q → q `prefix_of` cur ++ rest → q ≠ cur ++ rest →
       ∃ mode, m !! q = Some (Dir mode) ∧ perm_x mode = true.
Proof.
  revert cur. induction rest as [|c rest IH]; intros cur; simpl.
  - destruct (m !! cur) eqn:E; [|done]. intros [= ->]. rewrite app_nil_r. split; [done|].
    intros q H1 H2 Hne. exfalso. apply Hne.
    by apply (anti_symm prefix).
  - destruct (m !! cur) as [[|mode]|] eqn:E; try done.
    destruct (perm_x mode) eqn:Ex; [|done].
    intros H. apply IH in H as [H1 H2]. rewrite <- app_assoc in H1, H2. simpl in *.
    split; [done|]. intros q Hq1 Hq2 Hne.
    destruct (decide (q = cur)) as [->|Hqc]; [eauto|].
    apply H2; [|done..].
    destruct Hq1 as [k ->]. destruct k as [|c' k]; [by rewrite app_nil_r in Hqc|].
    apply prefix_app_inv in Hq2. apply prefix_cons_inv_1 in Hq2 as ->.
    rewrite (cons_middle c cur k), app_assoc. by apply prefix_app_r.
Qed.
Lemma namei_snoc (m : gmap path node) cur rest c :
  namei m cur (rest ++ [c]) =
  match namei m cur rest with
  | inl e => inl e
  | inr (File _ _) => inl ENOTDIR
  | inr (Dir mode) =>
      if perm_x mode then
        match m !! (cur ++ rest ++ [c]) with
        | None => inl ENOENT
        | Some n => inr n
        end
      else inl EACCES
  end.
Proof.
  revert cur. induction rest as [|c' rest IH]; intros cur; simpl.
  - by destruct (m !! cur) as [[|mode]|].
  - destruct (m !! cur) as [[|mode]|]; try done.
    destruct (perm_x mode); try done.
    rewrite IH. by rewrite <- !app_assoc.
Qed.

Lemma namei_insert_below (m : gmap path node) p k v :
  ¬ k `prefix_of` p → namei (<[k := v]> m) [] p = namei m [] p.
Proof.
  intros Hk. apply namei_agree. intros q _ Hq.
  apply lookup_insert_ne. intros ->. done.
Qed.

Lemma child_of_Some d k n : child_of d k = Some n ↔ k = d ++ [n].
Proof.
  unfold child_of. split.
  - destruct (reverse k) as [|n' rd] eqn:E; [done|].
    case_decide; [|done]. intros [= ->]. subst d.
    rewrite <- (reverse_involutive k), E. by rewrite reverse_cons.
  - intros ->. rewrite reverse_snoc. rewrite decide_True; [done|].
    by rewrite reverse_involutive.
Qed.

Lemma NoDup_omap_inj {A B} (f : A → option B) (l : list A) :
  (∀ x y b, f x = Some b → f y = Some b → x = y) → NoDup l → NoDup (omap f l).
Proof.
  intros Hinj. induction 1 as [|x l Hx Hl IH]; simpl; [constructor|].
  destruct (f x) as [b|] eqn:E; [|done].
  constructor; [|done]. intros Hb. apply list_elem_of_omap in Hb as (y & Hy & Hfy).
  by rewrite (Hinj x y b E Hfy) in Hx.
Qed.

Lemma elem_of_children (m : gmap path node) d n :
  n ∈ children m d ↔ is_Some (m !! (d ++ [n])).
Proof.
  unfold children. rewrite merge_sort_Permutation, list_elem_of_omap. split.
  - intros (k & Hk & Hc). apply child_of_Some in Hc as ->.
    apply list_elem_of_fmap in Hk as ([k v] & -> & Hkv).
    apply elem_of_map_to_list in Hkv. eauto.
  - intros [v Hv]. exists (d ++ [n]). split; [|by apply child_of_Some].
    apply list_elem_of_fmap. exists (d ++ [n], v). split; [done|].
    by apply elem_of_map_to_list.
Qed.

Lemma NoDup_children (m : gmap path node) d : NoDup (children m d).
Proof.
  unfold children. rewrite merge_sort_Permutation.
  apply NoDup_omap_inj; [|apply NoDup_fst_map_to_list].
  intros x y b Hx%child_of_Some Hy%child_of_Some. congruence.
Qed.

Lemma children_agree (m1 m2 : gmap path node) d :
  (∀ n, m1 !! (d ++ [n]) = m2 !! (d ++ [n])) → children m1 d = children m2 d.
Proof.
  intros H. apply (Sorted_unique String.le).
  - apply Sorted_merge_sort; apply _.
  - apply Sorted_merge_sort; apply _.
  - apply NoDup_Permutation; [apply NoDup_children..|].
    intros n. by rewrite !elem_of_children, H.
Qed.


Lemma parent_snoc p c : parent (p ++ [c]) = p.
Proof. apply removelast_last. Qed.

Lemma pres_refl w : pres w w.
Proof. repeat split. eauto. Qed.

Lemma pres_trans w1 w2 w3 : pres w1 w2 → pres w2 w3 → pres w1 w3.
Proof.
  intros (?&?&H1) (?&?&H2). repeat split; [congruence..|].
  intros q n Hq. apply H1 in Hq as (n1 & Hq1 & E1).
  apply H2 in Hq1 as (n2 & Hq2 & E2). exists n2. split; [done|congruence].
Qed.

Lemma pres_put w k v :
  (∀ n, files w !! k = Some n → info_of v = info_of n) → pres w (put k v w).
Proof.
  intros H. repeat split. intros q n Hq. simpl.
  destruct (decide (k = q)) as [->|Hne].
  - rewrite lookup_insert_eq. eauto.
  - rewrite lookup_insert_ne by done. eauto.
Qed.


Lemma agree_weaken (S S' : path → Prop) w1 w2 :
  (∀ q, S' q → S q) → agree S w1 w2 → agree S' w1 w2.
Proof. intros HS (?&?&H). repeat split; auto. Qed.

Lemma agree_sym S w1 w2 : agree S w1 w2 → agree S w2 w1.
Proof. intros (?&?&H). repeat split; try done. intros. symmetry. auto. Qed.

Lemma agree_trans S w1 w2 w3 : agree S w1 w2 → agree S w2 w3 → agree S w1 w3.
Proof.
  intros (?&?&H1) (?&?&H2). repeat split; [congruence..|].
  intros q Hq. rewrite H1, H2; auto.
Qed.

Lemma agree_refl S w : agree S w w.
Proof. done. Qed.


(** Primitive operations, characterised *)

Lemma Mkdir_spec p perm w r w' :
  Mkdir p perm w = (r, w') →
  (w' = w ∧ is_Some r) ∨
  (r = None ∧ files w !! p = None ∧ w' = put p (Dir (N.ldiff perm (umask w))) w ∧
   ∃ pm, namei (files w) [] (parent p) = inr (Dir pm) ∧ perm_x pm = true).
Proof.
  unfold Mkdir. intros H.
  destruct p as [|c p']; [simplify_eq; eauto|].
  destruct (namei _ _ _) as [eno|[fm fd|pm]] eqn:En; simplify_eq; eauto.
  destruct (perm_x pm) eqn:Ex; simplify_eq/=; eauto.
  destruct (files w !! _) eqn:El; simplify_eq; eauto.
  destruct (perm_w pm); simplify_eq; eauto.
  right. repeat split; eauto.
Qed.

Lemma Create_spec p w r w' :
  Create p w = (r, w') →
  (w' = w ∧ ∃ e, r = Err e) ∨
  (r = Ok p ∧ ∃ mode, w' = put p (File mode []) w ∧
     (∃ pm, namei (files w) [] (parent p) = inr (Dir pm) ∧ perm_x pm = true) ∧
     ((∃ old, files w !! p = Some (File mode old)) ∨
      (files w !! p = None ∧ mode = N.ldiff mode_0666 (umask w)))).
Proof.
  unfold Create. intros H.
  destruct p as [|c p']; [simplify_eq; eauto|].
  destruct (namei _ _ _) as [eno|[fm fd|pm]] eqn:En; simplify_eq; eauto.
  destruct (perm_x pm) eqn:Ex; simplify_eq/=; eauto.
  destruct (files w !! _) as [[mode old|]|] eqn:El; simplify_eq; eauto.
  - destruct (perm_r mode && perm_w mode); simplify_eq; eauto.
    right. split; [done|]. exists mode. eauto 10.
  - destruct (perm_w pm); simplify_eq; eauto.
    right. split; [done|]. eexists. eauto 10.
Qed.

Lemma Copy_spec dst src w r w' :
  Copy dst src w = (r, w') →
  (w' = w ∧ is_Some r) ∨
  (∃ smode data dmode old n,
     files w !! src = Some (File smode data) ∧
     files w !! dst = Some (File dmode old) ∧
     w' = put dst (File dmode (take n data)) w ∧
     (r = None → n = length data)).
Proof.
  unfold Copy. intros H.
  destruct (files w !! src) as [[smode data|]|] eqn:Es; simplify_eq; eauto.
  destruct (match fault_limit w dst src with Some _ => _ | None => _ end) as [n err] eqn:Ef.
  destruct (files w !! dst) as [[dmode old|]|] eqn:Ed; simplify_eq; eauto.
  right. exists smode, data, dmode, old, n. split_and!; [done..|].
  intros ->. destruct (fault_limit w dst src) as [[k e]|]; [|by simplify_eq].
  case_decide; by simplify_eq.
Qed.

(** One unfolding of [MkdirAll_rec], as a pure case analysis. *)
Lemma MkdirAll_rec_eq rp perm w :
  MkdirAll_rec rp perm w =
  match namei (files w) [] (reverse rp) with
  | inr n =>
      if node_is_dir n then (None, w)
      else (Some (PathError "mkdir" (reverse rp) ENOTDIR), w)
  | inl _ =>
      let '(err, w1) := match rp with
                        | [] => (None, w)
                        | _ :: rparent => MkdirAll_rec rparent perm w
                        end in
      match err with
      | Some e => (Some e, w1)
      | None =>
          let '(err, w2) := Mkdir (reverse rp) perm w1 in
          match err with
          | None => (None, w2)
          | Some e =>
              match lstat w2 (reverse rp) with
              | Ok dir => if IsDir dir then (None, w2) else (Some e, w2)
              | Err _ => (Some e, w2)
              end
          end
      end
  end.
Proof.
  destruct rp as [|c rp]; cbn [MkdirAll_rec]; unfold bind, ret, Stat, Lstat;
    destruct (namei _ _ _) as [eno|n]; simpl;
    repeat case_match; simplify_eq/=; try done.
Qed.

Lemma Mkdir_pres p perm w r w' : Mkdir p perm w = (r, w') → pres w w'.
Proof.
  intros [[-> _]|(_ & Hn & -> & _)]%Mkdir_spec; [apply pres_refl|].
  apply pres_put. intros n. by rewrite Hn.
Qed.

Lemma MkdirAll_rec_pres rp perm w r w' : MkdirAll_rec rp perm w = (r, w') → pres w w'.
Proof.
  revert w r w'. induction rp as [|c rp IH]; intros w r w'; rewrite MkdirAll_rec_eq.
  - destruct (namei _ _ _) as [eno|n].
    + destruct (Mkdir _ _ _) as [[e|] w2] eqn:Em; apply Mkdir_pres in Em.
      * destruct (lstat w2 _) as [dir|]; [destruct (IsDir dir)|]; intros; by simplify_eq.
      * intros; by simplify_eq.
    + destruct (node_is_dir n); intros; simplify_eq; apply pres_refl.
  - destruct (namei _ _ _) as [eno|n].
    + destruct (MkdirAll_rec rp perm w) as [[e|] w1] eqn:Er; apply IH in Er.
      { intros; by simplify_eq. }
      destruct (Mkdir _ _ _) as [[e|] w2] eqn:Em; apply Mkdir_pres in Em.
      * pose proof (pres_trans _ _ _ Er Em).
        destruct (lstat w2 _) as [dir|]; [destruct (IsDir dir)|]; intros; by simplify_eq.
      * intros; simplify_eq. by eapply pres_trans.
    + destruct (node_is_dir n); intros; simplify_eq; apply pres_refl.
Qed.

Lemma mkdir_adds_refl p perm w : mkdir_adds p perm w w.
Proof. intros q. by left. Qed.

Lemma Mkdir_adds p perm w r w' : Mkdir p perm w = (r, w') → mkdir_adds p perm w w'.
Proof.
  intros [[-> _]|(_ & Hn & -> & _)]%Mkdir_spec; [apply mkdir_adds_refl|].
  intros q. simpl. destruct (decide (p = q)) as [->|Hne].
  - right. by rewrite lookup_insert_eq.
  - left. by rewrite lookup_insert_ne.
Qed.

Lemma mkdir_adds_trans p1 p2 perm w1 w2 w3 :
  p1 `prefix_of` p2 → umask w2 = umask w1 →
  mkdir_adds p1 perm w1 w2 → mkdir_adds p2 perm w2 w3 → mkdir_adds p2 perm w1 w3.
Proof.
  intros Hp Hu H1 H2 q.
  destruct (H2 q) as [E2|(Hq2 & Hn2 & Hs2)], (H1 q) as [E1|(Hq1 & Hn1 & Hs1)].
  - left. congruence.
  - right. split_and!; [by etrans| done | congruence].
  - right. split_and!; [done | congruence | congruence].
  - congruence.
Qed.

Lemma MkdirAll_rec_adds rp perm w r w' :
  MkdirAll_rec rp perm w = (r, w') → mkdir_adds (reverse rp) perm w w'.
Proof.
  revert w r w'. induction rp as [|c rp IH]; intros w r w'; rewrite MkdirAll_rec_eq.
  - destruct (namei _ _ _) as [eno|n].
    + destruct (Mkdir _ _ _) as [[e|] w2] eqn:Em; apply Mkdir_adds in Em.
      * destruct (lstat w2 _) as [dir|]; [destruct (IsDir dir)|]; intros; by simplify_eq.
      * intros; by simplify_eq.
    + destruct (node_is_dir n); intros; simplify_eq; apply mkdir_adds_refl.
  - destruct (namei _ _ _) as [eno|n].
    + destruct (MkdirAll_rec rp perm w) as [[e|] w1] eqn:Er;
        pose proof (MkdirAll_rec_pres _ _ _ _ _ Er) as (Hu & _); apply IH in Er.
      { intros; simplify_eq. intros q. destruct (Er q) as [?|(?&?&?)]; [by left|right].
        split_and!; [|done..]. rewrite reverse_cons. by apply prefix_app_r. }
      assert (reverse rp `prefix_of` reverse (c :: rp)) as Hpre.
      { rewrite reverse_cons. by apply prefix_app_r. }
      destruct (Mkdir _ _ _) as [[e|] w2] eqn:Em; apply Mkdir_adds in Em.
      * pose proof (mkdir_adds_trans _ _ _ _ _ _ Hpre Hu Er Em).
        destruct (lstat w2 _) as [dir|]; [destruct (IsDir dir)|]; intros; by simplify_eq.
      * intros; simplify_eq. by eapply mkdir_adds_trans.
    + destruct (node_is_dir n); intros; simplify_eq; apply mkdir_adds_refl.
Qed.

(** A successful [MkdirAll] leaves a directory that resolves. *)
Lemma MkdirAll_rec_ok rp perm w w' :
  MkdirAll_rec rp perm w = (None, w') →
  ∃ mode, namei (files w') [] (reverse rp) = inr (Dir mode).
Proof.
  assert (∀ w2 e, (match lstat w2 (reverse rp) with
                   | Ok dir => if IsDir dir then (None, w2) else (Some e, w2)
                   | Err _ => (Some e, w2)
                   end) = (None : option error, w') →
                  ∃ mode, namei (files w') [] (reverse rp) = inr (Dir mode)) as Hl.
  { intros w2 e. unfold lstat. destruct (namei (files w2) _ _) as [eno|[fm fd|mode]] eqn:En;
      simpl; intros; simplify_eq. eauto. }
  assert (∀ w1 w2, Mkdir (reverse rp) perm w1 = (None, w2) →
                   ∃ mode, namei (files w2) [] (reverse rp) = inr (Dir mode)) as Hm.
  { intros w1 w2 [[_ []]|(_ & Hn & -> & pm & Hpm & Hx)]%Mkdir_spec; [done|].
    destruct rp as [|c rp].
    { apply namei_inr in Hpm as [Hpm _]. rewrite reverse_nil in *.
      unfold parent in *. simpl in *. congruence. }
    rewrite reverse_cons in *. rewrite parent_snoc in Hpm. simpl.
    rewrite namei_snoc, namei_insert_below by apply prefix_snoc_not.
    rewrite Hpm, Hx. simpl. rewrite lookup_insert_eq. eauto. }
  rewrite MkdirAll_rec_eq.
  destruct (namei (files w) [] (reverse rp)) as [eno|[fm fd|mode]] eqn:En; simpl;
    [|intros; simplify_eq; eauto..].
  destruct (match rp with [] => _ | _ => _ end) as [[e|] w1]; [intros; simplify_eq|].
  destruct (Mkdir _ _ _) as [[e|] w2] eqn:Em; [by apply Hl|].
  intros; simplify_eq. by eapply Hm.
Qed.

Lemma io_pres_ret {A} (a : A) : io_pres (ret a).
Proof. intros w. apply pres_refl. Qed.

Lemma io_pres_bind {A B} (m : io A) (k : A → io B) :
  io_pres m → (∀ a, io_pres (k a)) → io_pres (bind m k).
Proof.
  intros Hm Hk w. unfold bind. specialize (Hm w). destruct (m w) as [a w1].
  eapply pres_trans; [exact Hm|apply Hk].
Qed.




Lemma Open_val p w h : (Open p w).1 = Ok h → h = p.
Proof. unfold Open. simpl. repeat case_match; naive_solver. Qed.

Lemma Create_val p w h : (Create p w).1 = Ok h → h = p.
Proof. unfold Create. repeat case_match; simpl; naive_solver. Qed.

Lemma io_pres_read {A} (f : world → A) : io_pres (λ w, (f w, w)).
Proof. intros w. apply pres_refl. Qed.

Lemma Lstat_pres p : io_pres (Lstat p).
Proof. apply io_pres_read. Qed.
Lemma Stat_pres p : io_pres (Stat p).
Proof. apply io_pres_read. Qed.
Lemma readDirNames_pres p : io_pres (readDirNames p).
Proof. apply io_pres_read. Qed.
Lemma Open_pres p : io_pres (Open p).
Proof. apply io_pres_read. Qed.

Lemma Mkdir_io_pres p perm : io_pres (Mkdir p perm).
Proof. intros w. destruct (Mkdir p perm w) eqn:E. by eapply Mkdir_pres. Qed.

Lemma MkdirAll_pres p perm : io_pres (MkdirAll p perm).
Proof.
  intros w. unfold MkdirAll. destruct (MkdirAll_rec _ perm w) eqn:E.
  by eapply MkdirAll_rec_pres.
Qed.

Lemma Create_pres p : io_pres (Create p).
Proof.
  intros w. destruct (Create p w) as [r w'] eqn:E.
  apply Create_spec in E as [[-> _]|(_ & mode & -> & _ & H)]; [apply pres_refl|].
  apply pres_put. intros n Hn. destruct H as [[old H]|[H _]]; by simplify_eq.
Qed.

Lemma Copy_pres dst src : io_pres (Copy dst src).
Proof.
  intros w. destruct (Copy dst src w) as [r w'] eqn:E.
  apply Copy_spec in E as [[-> _]|(sm & data & dm & old & n & _ & Hd & -> & _)];
    [apply pres_refl|].
  apply pres_put. intros ? ?. by simplify_eq.
Qed.

Lemma walkFn_pres src dest p info err : io_pres (walkFn src dest p info err).
Proof.
  unfold walkFn. destruct err; [apply io_pres_ret|].
  destruct (Rel src p); [|apply io_pres_ret].
  destruct (IsDir info); [apply MkdirAll_pres|].
  apply io_pres_bind; [apply Open_pres|]. intros [h|e]; [|apply io_pres_ret].
  apply io_pres_bind; [apply Create_pres|]. intros [h'|e]; [|apply io_pres_ret].
  apply Copy_pres.
Qed.

Lemma visit_pres src dest p stk : io_pres (visit (walkFn src dest) p stk).
Proof.
  unfold visit. apply io_pres_bind; [apply Lstat_pres|]. intros [info|e].
  - destruct (IsDir info).
    + apply io_pres_bind; [apply readDirNames_pres|]. intros names.
      apply io_pres_bind; [apply walkFn_pres|]. intros err1.
      destruct names, err1; apply io_pres_ret.
    + apply io_pres_bind; [apply walkFn_pres|]. intros; apply io_pres_ret.
  - apply io_pres_bind; [apply walkFn_pres|]. intros; apply io_pres_ret.
Qed.

Lemma walk_step_pres src dest st : io_pres (walk_step (walkFn src dest) src st).
Proof.
  destruct st as [|[|[d [|n ns]] stk]|err]; simpl;
    first [apply visit_pres | apply io_pres_ret].
Qed.


(** agreement *)


Section agree.
Context (S : path → Prop).









End agree.

Lemma prefix_comparable (p q r : path) : p `prefix_of` r → q `prefix_of` r → comparable p q.
Proof. apply prefix_weak_total. Qed.


Lemma Rel_app src rel : Rel src (src ++ rel) = Ok rel.
Proof.
  unfold Rel. rewrite decide_True by by apply prefix_app_r.
  by rewrite drop_app_length.
Qed.




Lemma visit_under src dest p stk w :
  src `prefix_of` p → ws_under src (WFrames stk) →
  ws_under src (visit (walkFn src dest) p stk w).1.
Proof.
  intros Hp Hstk. unfold visit, bind, ret, walk_returns.
  repeat (case_match; simpl; try done).
  all: intros d ns [[=]|?]%elem_of_cons; subst; eauto.
Qed.

Lemma walk_step_under src dest st w :
  ws_under src st → ws_under src (walk_step (walkFn src dest) src st w).1.
Proof.
  destruct st as [|[|[d [|n ns]] stk]|err]; simpl; intros Hu; try done.
  - apply visit_under; [done|]. intros ?? []%elem_of_nil.
  - unfold ret. simpl. intros d' ns' H. apply (Hu d' ns'). by right.
  - apply visit_under.
    + apply prefix_app_r. apply (Hu d (n :: ns)). left.
    + intros d' ns' [[=]|?]%elem_of_cons; subst.
      * eapply Hu. left.
      * eapply Hu. by right.
Qed.


Lemma writes_refl P w : writes P w w.
Proof. intros q. by left. Qed.

Lemma writes_put P v w : writes P w (put P v w).
Proof.
  intros q. simpl. destruct (decide (P = q)) as [->|Hne]; [by right; left|].
  left. by rewrite lookup_insert_ne.
Qed.

Lemma writes_trans P w1 w2 w3 : writes P w1 w2 → writes P w2 w3 → writes P w1 w3.
Proof.
  intros H1 H2 q. destruct (H2 q) as [E2|[->|[Hq2 Hn2]]]; [|by right; left|].
  - destruct (H1 q) as [E1|[->|[Hq1 Hn1]]]; [left; congruence|by right; left|by right; right].
  - destruct (H1 q) as [E1|[->|[Hq1 Hn1]]]; [|by right; left|by right; right].
    right; right. split; [done|congruence].
Qed.

Lemma MkdirAll_writes p perm w : writes p w (MkdirAll p perm w).2.
Proof.
  unfold MkdirAll. destruct (MkdirAll_rec _ perm w) as [r w'] eqn:E.
  apply MkdirAll_rec_adds in E. rewrite reverse_involutive in E.
  intros q. destruct (E q) as [?|(?&?&?)]; [by left|by right; right].
Qed.

Lemma Create_writes p w : writes p w (Create p w).2.
Proof.
  destruct (Create p w) as [r w'] eqn:E.
  apply Create_spec in E as [[-> _]|(_ & mode & -> & _)]; [apply writes_refl|].
  apply writes_put.
Qed.

Lemma Copy_writes dst src w : writes dst w (Copy dst src w).2.
Proof.
  destruct (Copy dst src w) as [r w'] eqn:E.
  apply Copy_spec in E as [[-> _]|(sm & data & dm & old & n & _ & Hd & -> & _)];
    [apply writes_refl|].
  apply writes_put.
Qed.

Lemma walkFn_writes src dest rel info err w :
  writes (dest ++ rel) w (walkFn src dest (src ++ rel) info err w).2.
Proof.
  unfold walkFn. destruct err; [apply writes_refl|].
  rewrite Rel_app. destruct (IsDir info); [apply MkdirAll_writes|].
  unfold bind, ret. destruct (Open _ w) as [r w1] eqn:Eo.
  assert (w1 = w) as -> by (unfold Open in Eo; by simplify_eq).
  destruct r as [h|e]; [|apply writes_refl].
  pose proof (Create_writes (Join dest rel) w) as Hc.
  pose proof (Create_val (Join dest rel) w) as Hv.
  destruct (Create _ w) as [[h'|e] w2]; [|done]. rewrite (Hv h') by done.
  eapply writes_trans; [exact Hc|]. apply Copy_writes.
Qed.

Lemma visit_writes src dest rel stk w :
  writes (dest ++ rel) w (visit (walkFn src dest) (src ++ rel) stk w).2.
Proof.
  unfold visit, bind, ret, Lstat, readDirNames.
  destruct (lstat w _) as [info|e].
  - destruct (IsDir info).
    + match goal with |- context [walkFn src dest _ info ?e w] =>
        pose proof (walkFn_writes src dest rel info e w) as H;
        destruct (walkFn src dest _ info e w) as [err1 w1] end.
      by repeat case_match.
    + pose proof (walkFn_writes src dest rel info None w) as H.
      by destruct (walkFn _ _ _ _ _ w).
  - pose proof (walkFn_writes src dest rel nilFileInfo (Some e) w) as H.
    by destruct (walkFn _ _ _ _ _ w).
Qed.



(** * One copy, alone *)

#[local] Arguments walkFn : simpl never.
#[local] Arguments visit : simpl never.

Lemma rel_of_app src r : rel_of src (src ++ r) = r.
Proof. apply drop_app_length. Qed.

Lemma walkFn_file_ok src dest rel info w w' :
  IsDir info = false → dest ++ rel ≠ src ++ rel →
  walkFn src dest (src ++ rel) info None w = (None, w') →
  ∃ sm data m, files w !! (src ++ rel) = Some (File sm data) ∧
    w' = put (dest ++ rel) (File m data) w ∧
    ((∃ old, files w !! (dest ++ rel) = Some (File m old)) ∨
     (files w !! (dest ++ rel) = None ∧ m = N.ldiff mode_0666 (umask w))).
Proof.
  intros Hi Hne. unfold walkFn. rewrite Rel_app, Hi. unfold bind, ret, Join.
  destruct (Open _ w) as [r w1] eqn:Eo.
  assert (w1 = w) as -> by (unfold Open in Eo; by simplify_eq).
  destruct r as [h|e]; [|done].
  assert (h = src ++ rel) as ->. { apply (Open_val _ w). by rewrite Eo. }
  destruct (Create _ w) as [[h'|e] w2] eqn:Ec; [|done].
  apply Create_spec in Ec as [[_ [? ?]]|([= ->] & m & -> & _ & Hold)]; [done|].
  intros [[_ []]|(sm & data & dm & old & n & Hs & Hd & -> & Hn)]%Copy_spec; [done|].
  simpl in Hs, Hd. rewrite lookup_insert_ne in Hs by done.
  rewrite lookup_insert_eq in Hd. simplify_eq.
  exists sm, data, dm. split_and!; [done| |done].
  unfold put, with_files. simpl. rewrite insert_insert_eq.
  rewrite Hn by done. by rewrite firstn_all.
Qed.

Lemma walkFn_dir_ok src dest rel info w w' :
  IsDir info = true →
  walkFn src dest (src ++ rel) info None w = (None, w') →
  (∃ m, files w' !! (dest ++ rel) = Some (Dir m)) ∧
  ∀ x, x `prefix_of` dest ++ rel → is_Some (files w' !! x).
Proof.
  intros Hi. unfold walkFn. rewrite Rel_app, Hi. unfold MkdirAll, Join.
  intros [m Hm]%MkdirAll_rec_ok. rewrite reverse_involutive in Hm.
  apply namei_inr in Hm as [Hm Hpre]. simpl in *. split; [eauto|].
  intros x Hx. destruct (decide (x = dest ++ rel)) as [->|Hne]; [eauto|].
  destruct (Hpre x) as (? & ? & _); [apply prefix_nil|done..|eauto].
Qed.

Section frame.
Context (src dest : path) (w0 : world).
Hypothesis Hno : ¬ comparable src dest.

Lemma src_same w x :
  only_images src dest w0 w → src `prefix_of` x → files w !! x = files w0 !! x.
Proof.
  intros Ho Hx. destruct (Ho x) as [?|[(r & -> & _)|(Hxd & _)]]; [done|..].
  - exfalso. apply Hno. eapply prefix_comparable; [exact Hx|by apply prefix_app_r].
  - exfalso. apply Hno. left. by etrans.
Qed.

Lemma image_ne rel : dest ++ rel ≠ src ++ rel.
Proof.
  intros E. apply Hno. apply (prefix_comparable _ _ (src ++ rel)); [by apply prefix_app_r|].
  rewrite <- E. by apply prefix_app_r.
Qed.

(** One visit keeps the changes within the images of source entries. *)
Lemma visit_only_images rel stk w :
  pres w0 w → only_images src dest w0 w →
  only_images src dest w0 (visit (walkFn src dest) (src ++ rel) stk w).2.
Proof.
  intros Hp Ho.
  pose proof (visit_writes src dest rel stk w) as Hw.
  destruct (lstat w (src ++ rel)) as [info|e] eqn:El.
  2:{ (* Lstat failed: nothing is written *)
    unfold visit, bind, ret, Lstat, walkFn in *. rewrite El in *. simpl in *. done. }
  assert (∀ x, x `prefix_of` src ++ rel → is_Some (files w !! x)) as Hex.
  { unfold lstat in El. destruct (namei _ _ _) as [|n] eqn:En; [done|].
    apply namei_inr in En as [En Hpre]. simpl in *. intros x Hx.
    destruct (decide (x = src ++ rel)) as [->|Hne]; [eauto|].
    destruct (Hpre x) as (? & ? & _); [apply prefix_nil|done..|eauto]. }
  assert (∀ r, r `prefix_of` rel → is_Some (files w0 !! (src ++ r))) as Hex0.
  { intros r Hr. rewrite <- (src_same w) by (done || by apply prefix_app_r).
    apply Hex. by apply prefix_app. }
  intros x. destruct (Hw x) as [E|[->|[Hx Hn]]].
  - rewrite E. apply Ho.
  - right; left. exists rel. split; [done|]. by apply Hex0.
  - destruct (prefix_weak_total x dest (dest ++ rel)) as [Hxd|Hdx];
      [done|by apply prefix_app_r|..].
    + destruct (decide (x = dest)) as [->|Hne].
      * right; left. exists []. rewrite app_nil_r. split; [done|]. apply Hex0, prefix_nil.
      * right; right. split_and!; [done..|].
        destruct (files w0 !! x) eqn:E0; [|done].
        destruct Hp as (_ & _ & Hp). apply Hp in E0 as (? & ? & _). congruence.
    + destruct Hdx as [r ->]. right; left. exists r. split; [done|].
      apply Hex0. by apply prefix_app_inv in Hx.
Qed.

Lemma walk_step_frame_inv st w :
  frame_inv src dest w0 st w →
  frame_inv src dest w0 (walk_step (walkFn src dest) src st w).1
                        (walk_step (walkFn src dest) src st w).2.
Proof.
  intros (Hp & Ho & Hu). split_and!.
  - eapply pres_trans; [exact Hp|apply walk_step_pres].
  - destruct st as [|[|[d [|n ns]] stk]|err]; simpl; try done.
    + pose proof (visit_only_images [] [] w Hp Ho) as H.
      by rewrite app_nil_r in H.
    + destruct (Hu d (n :: ns)) as [k ->]; [left|]. rewrite <- app_assoc.
      by apply visit_only_images.
  - by apply walk_step_under.
Qed.

Lemma walk_iter_frame_inv n st w :
  frame_inv src dest w0 st w →
  frame_inv src dest w0 (walk_iter (walkFn src dest) src n st w).1
                        (walk_iter (walkFn src dest) src n st w).2.
Proof.
  revert st w. induction n as [|n IH]; intros st w H; [done|].
  simpl. unfold bind. pose proof (walk_step_frame_inv st w H) as H'.
  destruct (walk_step _ _ st w) as [st' w']. by apply IH.
Qed.

Lemma frame_inv_start : frame_inv src dest w0 WStart w0.
Proof. split_and!; [apply pres_refl| |done]. intros x. by left. Qed.
End frame.

Lemma tree_wf_anc src w a q :
  tree_wf src w → src `prefix_of` a → a `prefix_of` q → a ≠ q →
  is_Some (files w !! q) → ∃ mode, files w !! a = Some (Dir mode).
Proof.
  intros Hwf Ha [k ->]. induction k as [|c k IH] using rev_ind.
  - by rewrite app_nil_r.
  - intros _ Hq. rewrite app_assoc in Hq.
    apply Hwf in Hq; [|by apply prefix_app_r].
    destruct (decide (a = a ++ k)) as [Heq|Hne]; [by rewrite <- Heq in Hq|].
    apply IH; [done|]. destruct Hq as [? ->]. eauto.
Qed.

Lemma copied_missing src dest w0 w q : files w0 !! q = None → copied src dest w0 w q.
Proof. unfold copied. by intros ->. Qed.

Section copy.
Context (src dest : path) (w0 : world).
Hypothesis Hno : ¬ comparable src dest.
Hypothesis Hwf : tree_wf src w0.

(** Below a visited entry that gave no frame, or below a name that the
    directory does not list, there is nothing to copy. *)
Lemma nothing_below_file p q m data :
  src `prefix_of` p → files w0 !! p = Some (File m data) →
  p `prefix_of` q → q ≠ p → files w0 !! q = None.
Proof.
  intros Hp Hf Hq Hne. destruct (files w0 !! q) eqn:E; [|done].
  destruct (tree_wf_anc src w0 p q) as [? ?]; [done..|congruence|eauto|congruence].
Qed.

Lemma nothing_below_unlisted p q :
  src `prefix_of` p → p `prefix_of` q → q ≠ p →
  (∀ c, c ∈ children (files w0) p → ¬ (p ++ [c]) `prefix_of` q) →
  files w0 !! q = None.
Proof.
  intros Hp [k ->] Hne Hc. destruct k as [|c k]; [by rewrite app_nil_r in Hne|].
  destruct (files w0 !! (p ++ c :: k)) eqn:E; [|done]. exfalso.
  apply (Hc c).
  - apply elem_of_children. destruct (decide (p ++ [c] = p ++ c :: k)) as [->|Hne'].
    + eauto.
    + destruct (tree_wf_anc src w0 (p ++ [c]) (p ++ c :: k)) as [? ->]; eauto.
      * by apply prefix_app_r.
      * rewrite (cons_middle c p k). rewrite app_assoc. by apply prefix_app_r.
  - rewrite (cons_middle c p k). rewrite app_assoc. by apply prefix_app_r.
Qed.

Lemma visit_copied rel stk w :
  pres w0 w → only_images src dest w0 w →
  match (visit (walkFn src dest) (src ++ rel) stk w).1 with
  | WFrames stk' =>
      let w' := (visit (walkFn src dest) (src ++ rel) stk w).2 in
      copied src dest w0 w' (src ++ rel) ∧
      (∀ q, src `prefix_of` q → q ≠ src ++ rel →
            copied src dest w0 w q → copied src dest w0 w' q) ∧
      ((stk' = stk ∧ ∃ m data, files w0 !! (src ++ rel) = Some (File m data)) ∨
       stk' = (src ++ rel, children (files w0) (src ++ rel)) :: stk)
  | WReturn (Some _) => True
  | _ => False
  end.
Proof.
  intros Hp Ho.
  pose proof (visit_writes src dest rel stk w) as Hw.
  assert (∀ w', writes (dest ++ rel) w w' →
            ∀ q, src `prefix_of` q → q ≠ src ++ rel →
                 copied src dest w0 w q → copied src dest w0 w' q) as Hkeep.
  { intros w' Hw' q [k ->] Hne. unfold copied. rewrite rel_of_app.
    destruct (files w0 !! (src ++ k)) as [[m data|m]|]; [| |done].
    all: intros [m' Hm']; exists m'; rewrite <- Hm'.
    all: destruct (Hw' (dest ++ k)) as [?|[E|[_ ?]]]; [done| |congruence].
    all: apply app_inv_head in E; congruence. }
  assert (files w !! (src ++ rel) = files w0 !! (src ++ rel)) as Hsame.
  { apply (src_same src dest w0 Hno); [done|by apply prefix_app_r]. }
  revert Hw. unfold visit, bind, ret, Lstat, readDirNames, lstat. cbv beta iota zeta.
  destruct (namei (files w) [] (src ++ rel)) as [eno|n] eqn:En; simpl; [done|].
  pose proof En as En'.
  apply namei_inr in En as [En _]. simpl in En. rewrite Hsame in En.
  destruct n as [sm data|sm]; simpl.
  - (* a file *)
    match goal with |- context [walkFn ?a ?b ?c ?i ?e w] =>
      destruct (walkFn a b c i e w) as [[e'|] w'] eqn:Ef end; simpl; [done|].
    intros Hw. apply walkFn_file_ok in Ef as (sm' & data' & m & Hs & -> & _);
      [|done|by apply image_ne].
    rewrite Hsame, En in Hs. simplify_eq. split_and!; [|by apply Hkeep|left; eauto].
    unfold copied. rewrite En, rel_of_app. exists m. simpl. by rewrite lookup_insert_eq.
  - (* a directory *)
    rewrite En'. destruct (perm_r sm); simpl.
    + match goal with |- context [walkFn ?a ?b ?c ?i ?e w] =>
        destruct (walkFn a b c i e w) as [[e'|] w'] eqn:Ef end; simpl.
        { done. }
      intros Hw. apply walkFn_dir_ok in Ef as [[m Hm] _]; [|done].
      split_and!; [|by apply Hkeep|right].
      * unfold copied. rewrite En, rel_of_app. eauto.
      * f_equal. f_equal. apply children_agree. intros c.
        apply (src_same src dest w0 Hno); [done|].
        rewrite <- app_assoc. by apply prefix_app_r.
    + unfold walkFn. simpl. done.
Qed.

Lemma walk_step_inv st w :
  walk_inv src dest w0 st w →
  walk_inv src dest w0 (walk_step (walkFn src dest) src st w).1
                       (walk_step (walkFn src dest) src st w).2.
Proof.
  intros [Hf Hc]. split; [by apply walk_step_frame_inv|].
  destruct Hf as (Hp & Ho & Hu).
  destruct st as [|[|[d [|n ns]] stk]|err]; simpl.
  - (* the root *)
    pose proof (visit_copied [] [] w Hp Ho) as H. rewrite app_nil_r in H.
    destruct (visit _ src [] w) as [st' w'] eqn:Ev. simpl in *.
    destruct st' as [|stk'|[e|]]; try done.
    destruct H as (Hroot & _ & Hk). intros q Hq Hnp.
    destruct (decide (q = src)) as [->|Hne]; [done|]. apply copied_missing.
    destruct Hk as [[-> (m & data & Hf)]| ->].
    + by apply (nothing_below_file src q m data).
    + apply (nothing_below_unlisted src q); [done..|].
      intros c Hcin Hpre. apply Hnp. exists src, (children (files w0) src), c.
      split_and!; [left|done..].
  - intros q Hq Hnp. apply Hc; [done|]. by intros (? & ? & ? & []%elem_of_nil & _).
  - intros q Hq Hnp. apply Hc; [done|]. intros (d' & ns' & n' & Hin & Hn' & Hpre).
    apply Hnp. exists d', ns', n'. split_and!; [|done..].
    apply elem_of_cons in Hin as [[= -> ->]|?]; [|done]. by apply elem_of_nil in Hn'.
  - (* the next name of the innermost directory *)
    destruct (Hu d (n :: ns)) as [k ->]; [left|]. rewrite <- app_assoc.
    pose proof (visit_copied (k ++ [n]) ((src ++ k, ns) :: stk) w Hp Ho) as H.
    destruct (visit _ _ _ w) as [st' w'] eqn:Ev. simpl in *.
    destruct st' as [|stk'|[e|]]; try done.
    destruct H as (Hthis & Hkeep & Hk). intros q Hq Hnp.
    destruct (decide (src ++ k ++ [n] `prefix_of` q)) as [Hbelow|Hnot].
    + destruct (decide (q = src ++ k ++ [n])) as [->|Hne]; [done|].
      apply copied_missing. destruct Hk as [[-> (m & data & Hf)]| ->].
      * apply (nothing_below_file (src ++ k ++ [n]) q m data); [|done..].
        by apply prefix_app_r.
      * apply (nothing_below_unlisted (src ++ k ++ [n]) q); [by apply prefix_app_r|done..|].
        intros c Hcin Hpre. apply Hnp. eexists _, _, c. split_and!; [left|done..].
    + apply Hkeep; [done|by intros ->|]. apply Hc; [done|].
      intros (d' & ns' & n' & Hin & Hn' & Hpre). apply Hnp.
      assert ((∃ ns'', (d', ns'') ∈ (src ++ k, ns) :: stk ∧ n' ∈ ns'') ∨
              (d' = src ++ k ∧ n' = n)) as [(ns'' & Hin' & Hn'')|[-> ->]].
      { apply elem_of_cons in Hin as [[= -> ->]|?].
        - apply elem_of_cons in Hn' as [->|?]; [by right|].
          left. exists ns. split; [left|done].
        - left. exists ns'. split; [by right|done]. }
      * exists d', ns'', n'. split_and!; [|done..].
        destruct Hk as [[-> _]| ->]; [done|by right].
      * by rewrite <- app_assoc in Hpre.
  - destruct err; [done|]. exact Hc.
Qed.

Lemma walk_iter_inv n st w :
  walk_inv src dest w0 st w →
  walk_inv src dest w0 (walk_iter (walkFn src dest) src n st w).1
                       (walk_iter (walkFn src dest) src n st w).2.
Proof.
  revert st w. induction n as [|n IH]; intros st w H; [done|].
  simpl. unfold bind. pose proof (walk_step_inv st w H) as H'.
  destruct (walk_step _ _ st w) as [st' w']. by apply IH.
Qed.

Lemma walk_inv_start : walk_inv src dest w0 WStart w0.
Proof. split; [apply frame_inv_start|]. intros q _ Hq. by destruct Hq. Qed.
End copy.

(** ** Deciding the side conditions on a given world *)

Lemma pair_fst_eq {A B} (p : A * B) (a : A) : p.1 = a → p = (a, p.2).
Proof. destruct p. by intros <-. Qed.

Lemma pair_eta {A B} (p : A * B) : p = (p.1, p.2).
Proof. by destruct p. Qed.



Lemma key_in_world (w : world) k :
  is_Some (files w !! k) → In k (map_to_list (files w)).*1.
Proof.
  intros [n Hn]. apply list_elem_of_In, list_elem_of_fmap. exists (k, n).
  split; [done|]. by apply elem_of_map_to_list.
Qed.

Lemma tree_wfb_sound src w : tree_wfb src w = true → tree_wf src w.
Proof.
  unfold tree_wfb. rewrite forallb_forall. intros H q c Hq Hs.
  apply key_in_world, H in Hs. rewrite reverse_snoc, reverse_involutive in Hs.
  rewrite decide_True in Hs by done.
  destruct (files w !! q) as [[|m]|]; [done|eauto|done].
Qed.

Lemma empty_belowb_sound dest w : empty_belowb dest w = true → empty_below dest w.
Proof.
  unfold empty_belowb. rewrite forallb_forall. intros H rel Hne.
  destruct (files w !! (dest ++ rel)) eqn:E; [|done].
  assert (is_Some (files w !! (dest ++ rel))) as Hs by eauto.
  apply key_in_world, H, bool_decide_eq_true in Hs. exfalso. apply Hs.
  split; [by apply prefix_app_r|]. intros Heq.
  apply Hne, (app_inv_head dest). by rewrite app_nil_r.
Qed.

(** ** Runs of the walk *)

Lemma walk_iter_return fn root n r w :
  walk_iter fn root n (WReturn r) w = (WReturn r, w).
Proof. induction n as [|n IH]; [done|]. simpl. unfold bind, ret. apply IH. Qed.






Lemma Walk_eq fuel root fn w :
  Walk fuel root fn w =
  (walk_result (walk_iter fn root fuel WStart w).1, (walk_iter fn root fuel WStart w).2).
Proof. unfold Walk, bind, ret. by destruct (walk_iter _ _ _ _ _). Qed.

Lemma Walk_returns fuel root fn w r w' :
  Walk fuel root fn w = (Some r, w') ↔
  walk_iter fn root fuel WStart w = (WReturn r, w').
Proof.
  rewrite Walk_eq. destruct (walk_iter _ _ _ _ _) as [st w1]. simpl. split.
  - intros [= H ->]. destruct st; simpl in H; by simplify_eq.
  - by intros [= -> ->].
Qed.

(** The shapes the answer of a visit can have. *)
Lemma visit_cases src dest p stk w :
  let r := visit (walkFn src dest) p stk w in
  (∃ e, r.1 = WReturn (Some e)) ∨
  (is_Some (files w !! p) ∧
   (r.1 = WFrames stk ∨
    ∃ ns info, r.1 = WFrames ((p, ns) :: stk) ∧ IsDir info = true ∧
      walkFn src dest p info None w = (None, r.2))).
Proof.
  unfold visit, bind, ret, Lstat, readDirNames, lstat. cbv beta iota zeta.
  destruct (namei (files w) [] p) as [eno|n] eqn:En; simpl.
  { left. unfold walkFn. simpl. eauto. }
  pose proof En as En'. apply namei_inr in En as [En _]. simpl in En.
  destruct (node_is_dir n) eqn:Ed.
  - destruct n as [|mode]; [done|]. simpl. rewrite En'.
    destruct (perm_r mode).
    + match goal with |- context [walkFn ?a ?b ?c ?i ?e w] =>
        destruct (walkFn a b c i e w) as [[e'|] w'] eqn:Ef end; simpl;
        [left; eauto|].
      right. split; [eauto|]. right.
      eexists _, _. split_and!; [done| |exact Ef]. done.
    + left. unfold walkFn. simpl. eauto.
  - match goal with |- context [walkFn ?a ?b ?c ?i ?e w] =>
      destruct (walkFn a b c i e w) as [[e'|] w'] eqn:Ef end; simpl;
      [left; eauto|].
    right. split; [eauto|]. by left.
Qed.

Lemma walk_success_src src dest n w w' :
  walk_iter (walkFn src dest) src n WStart w = (WReturn None, w') →
  is_Some (files w !! src).
Proof.
  destruct n as [|n]; [done|]. simpl. unfold bind.
  destruct (visit_cases src dest src [] w) as [[e He]|[? _]]; [|done].
  destruct (visit _ _ _ _) as [st1 w1]. simpl in He. subst st1.
  by rewrite walk_iter_return.
Qed.

(** ** Parents before children *)

Lemma pres_dir w w' x m :
  pres w w' → files w !! x = Some (Dir m) → files w' !! x = Some (Dir m).
Proof.
  intros (_ & _ & H) Hx. apply H in Hx as (n' & Hn' & Hi).
  destruct n'; by simplify_eq/=.
Qed.

Lemma pres_is_Some w w' x :
  pres w w' → is_Some (files w !! x) → is_Some (files w' !! x).
Proof. intros (_ & _ & H) [n Hx]. apply H in Hx as (n' & Hn' & _). eauto. Qed.

Lemma frames_made_pres src dest stk w w' :
  pres w w' → frames_made src dest (WFrames stk) w → frames_made src dest (WFrames stk) w'.
Proof.
  intros Hp H d ns Hin. destruct (H d ns Hin) as [[m Hm] Hx]. split.
  - exists m. by eapply pres_dir.
  - intros x Hpre. eapply pres_is_Some; eauto.
Qed.

Lemma visit_frames_made src dest rel stk w :
  frames_made src dest (WFrames stk) w →
  frames_made src dest (visit (walkFn src dest) (src ++ rel) stk w).1
                       (visit (walkFn src dest) (src ++ rel) stk w).2.
Proof.
  intros H.
  pose proof (visit_pres src dest (src ++ rel) stk w) as Hp.
  destruct (visit_cases src dest (src ++ rel) stk w)
    as [[e ->]|[_ [->|(ns & info & -> & Hi & Hf)]]]; [done|..].
  - by eapply frames_made_pres.
  - apply walkFn_dir_ok in Hf as [Hd Hx]; [|done].
    intros d' ns' [[= -> ->]|Hin]%elem_of_cons.
    + by rewrite rel_of_app.
    + by eapply (frames_made_pres src dest stk w).
Qed.

Lemma walk_step_frames_made src dest st w :
  ws_under src st → frames_made src dest st w →
  frames_made src dest (walk_step (walkFn src dest) src st w).1
                       (walk_step (walkFn src dest) src st w).2.
Proof.
  destruct st as [|[|[d [|n ns]] stk]|err]; simpl; intros Hu H; try done.
  - pose proof (visit_frames_made src dest [] [] w) as H'.
    rewrite app_nil_r in H'. refine (H' _). intros d ns Hin. by apply elem_of_nil in Hin.
  - unfold ret. simpl. intros d' ns' Hin. apply (H d' ns'). by right.
  - destruct (Hu d (n :: ns)) as [k ->]; [left|]. rewrite <- app_assoc.
    refine (visit_frames_made _ _ _ _ _ _).
    intros d' ns' [[= -> ->]|Hin]%elem_of_cons.
    + eapply H. left.
    + apply (H d' ns'). by right.
Qed.


Lemma walk_iter_frames_made src dest n st w :
  ws_under src st → frames_made src dest st w →
  frames_made src dest (walk_iter (walkFn src dest) src n st w).1
                       (walk_iter (walkFn src dest) src n st w).2.
Proof.
  revert st w. induction n as [|n IH]; intros st w Hu H; [done|].
  simpl. unfold bind. pose proof (walk_step_under src dest st w Hu) as Hu'.
  pose proof (walk_step_frames_made src dest st w Hu H) as H'.
  destruct (walk_step _ _ st w) as [st' w']. by apply IH.
Qed.

(** ** Modes of the directories [MkdirAll] leaves *)

Lemma MkdirAll_mode p perm w w' :
  MkdirAll p perm w = (None, w') →
  ∃ m, files w' !! p = Some (Dir m) ∧
       (files w !! p = None → m = N.ldiff perm (umask w)) ∧
       (∀ n, files w !! p = Some n → n = Dir m).
Proof.
  unfold MkdirAll. intros H. pose proof (MkdirAll_rec_adds _ _ _ _ _ H) as Ha.
  apply MkdirAll_rec_ok in H as [m Hm]. rewrite reverse_involutive in Hm, Ha.
  apply namei_inr in Hm as [Hm _]. simpl in Hm. exists m. split; [done|].
  destruct (Ha p) as [E|(_ & Hn & Hs)].
  - rewrite <- E, Hm. split; [done|]. by intros n [= <-].
  - rewrite Hn. split; [|done]. intros _. congruence.
Qed.

Lemma MkdirAll_existing p perm w m :
  namei (files w) [] p = inr (Dir m) → MkdirAll p perm w = (None, w).
Proof.
  intros H. unfold MkdirAll. rewrite MkdirAll_rec_eq, reverse_involutive, H. done.
Qed.

Lemma MkdirAll_blocked p perm w m data :
  namei (files w) [] p = inr (File m data) →
  MkdirAll p perm w = (Some (PathError "mkdir" p ENOTDIR), w).
Proof.
  intros H. unfold MkdirAll. rewrite MkdirAll_rec_eq, reverse_involutive, H. done.
Qed.

Lemma walkFn_dir_eq src dest rel info w :
  IsDir info = true →
  walkFn src dest (src ++ rel) info None w = MkdirAll (dest ++ rel) (Mode info) w.
Proof. intros Hi. unfold walkFn. by rewrite Rel_app, Hi. Qed.

(** * The goroutines and the WaitGroup *)

Import Concurrent.




(** Induction over the steps of a run. *)
Lemma reachable_inv (P : config → Prop) c0 :
  P c0 → (∀ l c c', P c → step l c = Some c' → P c') → ∀ c, reachable c0 c → P c.
Proof.
  intros H0 Hstep c [sched H]. revert c0 H0 H.
  induction sched as [|l sched IH]; intros c0 H0 H; simpl in *; [by simplify_eq|].
  destruct (step l c0) as [c1|] eqn:Hs; [|done]. simpl in *. eauto.
Qed.

(** ** The steps, case by case *)

Lemma step_main_inv c c' :
  step LMain c = Some c' → halted c = false ∧ main_step c = Some c'.
Proof. unfold step. by destruct (halted c). Qed.

Lemma step_task_inv i c c' :
  step (LTask i) c = Some c' →
  halted c = false ∧
  ∃ t t' c1, c_pool c !! i = Some t ∧ task_step t c = Some (t', c1) ∧
             c' = with_pool c1 (<[i := t']> (c_pool c1)).
Proof.
  unfold step. destruct (halted c); [done|]. intros H. split; [done|].
  destruct (c_pool c !! i) as [t|] eqn:Hi; simpl in H; [|done].
  destruct (task_step t c) as [[t' c1]|] eqn:Ht; simpl in H; [|done]. simplify_eq.
  by exists t, t', c1.
Qed.

Lemma task_step_inv t c t' c1 :
  task_step t c = Some (t', c1) →
  t_src t' = t_src t ∧ t_dest t' = t_dest t ∧
  c_main c1 = c_main c ∧ c_pool c1 = c_pool c ∧
  task_step_spec t c t' c1.
Proof.
  unfold task_step. destruct (t_pc t) as [ws|err|err] eqn:Hpc; [| |done].
  - destruct ws as [|stk|err].
    + destruct (walk_step _ _ _ _) as [ws' w'] eqn:Hw. intros [= <- <-]. simpl.
      split_and!; try done. eapply task_walks; simpl; rewrite ?Hw; done.
    + destruct (walk_step _ _ _ _) as [ws' w'] eqn:Hw. intros [= <- <-]. simpl.
      split_and!; try done. eapply task_walks; simpl; rewrite ?Hw; done.
    + intros [= <- <-]. simpl. split_and!; try done.
      eapply (task_reports _ _ _ _ err); simpl; try done.
      by destruct err; rewrite ?app_nil_r.
  - intros [= <- <-]. simpl. split_and!; try done.
    eapply (task_is_done _ _ _ _ err); simpl; done.
Qed.

(** ** Counting the goroutines that have not returned *)

Lemma live_insert_same pool i t t' :
  pool !! i = Some t → task_exited t' = task_exited t →
  length (filter (λ t, task_exited t = false) (<[i := t']> pool)) =
  length (filter (λ t, task_exited t = false) pool).
Proof.
  intros Hi He. rewrite <- (take_drop_middle pool i t Hi) at 2.
  rewrite insert_take_drop by by eapply lookup_lt_Some.
  rewrite !filter_app, !filter_cons, He, !length_app. by case_decide.
Qed.

Lemma live_insert_exit pool i t t' :
  pool !! i = Some t → task_exited t = false → task_exited t' = true →
  S (length (filter (λ t, task_exited t = false) (<[i := t']> pool))) =
  length (filter (λ t, task_exited t = false) pool).
Proof.
  intros Hi He He'. rewrite <- (take_drop_middle pool i t Hi) at 2.
  rewrite insert_take_drop by by eapply lookup_lt_Some.
  rewrite !filter_app, !filter_cons, He, He'.
  rewrite (decide_True (P := false = false)), (decide_False (P := true = false)) by done.
  rewrite !length_app. simpl. lia.
Qed.

Lemma live_zero_exited c t :
  live c = 0%nat → t ∈ c_pool c → task_exited t = true.
Proof.
  unfold live. intros H Hin. destruct (task_exited t) eqn:E; [done|].
  assert (t ∈ filter (λ t, task_exited t = false) (c_pool c)) as Hf.
  { by apply list_elem_of_filter. }
  destruct (filter _ _); [by apply elem_of_nil in Hf|done].
Qed.

(** ** The WaitGroup invariant *)

Lemma main_step_wg_inv c c' :
  wg_inv c → main_step c = Some c' → wg_inv c'.
Proof.
  intros (Hp & Hwg & Hj & Hs). unfold main_step.
  destruct (c_main c) as [h dn sn|dn sp [|env envs]|dn sp d envs|dn sp d envs| | |] eqn:Hm;
    unfold wg_inv, live in *; simpl in *.
  - destruct (main_prefix _ _ _ _) as [[out [sp|]] w']; intros [= <-]; simpl;
      rewrite Hs in *; simpl in *; split_and!; done.
  - intros [= <-]. simpl. by split_and!.
  - destruct (MkdirAll _ _ _) as [[e|] w']; intros [= <-]; simpl; by split_and!.
  - intros [= <-]. simpl. rewrite Hp. split_and!; try done; [|lia].
    simpl. apply bool_decide_eq_false. lia.
  - intros [= <-]. simpl. split_and!; try done.
    rewrite filter_app, length_app. simpl. lia.
  - case_decide as Hz; [|done]. intros [= <-]. simpl. split_and!; try done.
    intros _. lia.
  - intros [= <-]. simpl. split_and!; try done; auto.
  - done.
Qed.

Lemma task_step_wg_inv i c c' :
  wg_inv c → step (LTask i) c = Some c' → wg_inv c'.
Proof.
  intros (Hp & Hwg & Hj & Hs) (Hh & t & t' & c1 & Hi & Ht & ->)%step_task_inv.
  apply task_step_inv in Ht as (_ & _ & Hm & Hpool & Hspec).
  unfold wg_inv, live in *. simpl. rewrite Hm, Hpool.
  assert (¬ (if c_main c is MStart _ _ _ then True else False)) as Hns.
  { destruct (c_main c); try (by intros []). intros _. by rewrite Hs, lookup_nil in Hi. }
  destruct Hspec as [ws Hpc _ Hpc' _ _ Hwg' Hp'|err Hpc Hpc' _ _ Hwg' Hp'
                    |err Hpc Hpc' _ _ Hwg' Hp'].
  - rewrite (live_insert_same _ _ t) by
      (done || unfold task_exited; by rewrite Hpc, Hpc').
    rewrite Hwg', Hp'. split_and!; try done. by destruct (c_main c).
  - rewrite (live_insert_same _ _ t) by
      (done || unfold task_exited; by rewrite Hpc, Hpc').
    rewrite Hwg', Hp'. split_and!; try done. by destruct (c_main c).
  - assert (task_exited t = false) as He by (unfold task_exited; by rewrite Hpc).
    assert (task_exited t' = true) as He' by (unfold task_exited; by rewrite Hpc').
    pose proof (live_insert_exit (c_pool c) i t t' Hi He He') as Hl.
    rewrite Hwg', Hp', Hp. simpl.
    assert (0 ≤ if c_main c is MGo _ _ _ _ then 1 else 0)%Z as Hflag
      by (destruct (c_main c); lia).
    split_and!.
    + apply bool_decide_eq_false. lia.
    + lia.
    + intros Hpj. specialize (Hj Hpj). lia.
    + by destruct (c_main c).
Qed.

Lemma wg_inv_init w h dn sn : wg_inv (init w h dn sn).
Proof. by split_and!. Qed.

Lemma wg_inv_reachable c0 c : wg_inv c0 → reachable c0 c → wg_inv c.
Proof.
  intros H0. revert c. apply (reachable_inv wg_inv); [done|]. intros [|i] c1 c2 H Hs.
  - apply step_main_inv in Hs as [_ Hs]. by eapply main_step_wg_inv.
  - by eapply task_step_wg_inv.
Qed.

(** ** The first step *)

Lemma main_step_init w h dn sn :
  main_step (init w h dn sn) = Some (after_prefix w h dn sn).
Proof.
  unfold main_step, after_prefix, init, with_main. simpl.
  by destruct (main_prefix h dn sn w) as [[out r] w'].
Qed.

Lemma reachable_init_cases w h dn sn c :
  reachable (init w h dn sn) c →
  c = init w h dn sn ∨ reachable (after_prefix w h dn sn) c.
Proof.
  intros [[|l sched] H]; simpl in H; [left; by simplify_eq|right].
  destruct l as [|i]; simpl in H.
  - unfold step in H. simpl in H. rewrite main_step_init in H. simpl in H. by exists sched.
  - done.
Qed.

Lemma main_prefix_out h dn sn w : copy_errors (main_prefix h dn sn w).1.1 = [].
Proof.
  unfold main_prefix, bind, ret, Stat. cbv beta iota zeta.
  destruct (IsNotExist _); [done|].
  destruct (IsNotExist _).
  - destruct (MkdirAll _ _ w) as [[e|] w1]; [done|].
    by destruct (MkdirAll _ _ w1) as [[e|] w2].
  - simpl. by destruct (MkdirAll _ _ w) as [[e|] w2].
Qed.

(** ** What a step of [main] adds *)

Lemma main_step_effect c c' :
  main_step c = Some c' →
  ∃ lines new,
    c_out c' = c_out c ++ lines ∧ copy_errors lines = [] ∧
    c_pool c' = c_pool c ++ new ∧ omap failure_of new = [] ∧
    (∀ dn sp, main_ok dn sp (c_main c) →
       main_ok dn sp (c_main c') ∧ (∀ t, t ∈ new → t_src t = dn) ∧
       (t_dest <$> new) ++ pending_dests (c_main c') `sublist_of` pending_dests (c_main c)).
Proof.
  unfold main_step.
  destruct (c_main c) as [h dn sn|dn sp [|env envs]|dn sp d envs|dn sp d envs| | |] eqn:Hm.
  - pose proof (main_prefix_out h dn sn (c_world c)) as Ho.
    destruct (main_prefix _ _ _ _) as [[out r] w']. intros [= <-]. simpl in *.
    exists out, []. rewrite app_nil_r. by split_and!.
  - intros [= <-]. exists [], []. simpl. rewrite !app_nil_r. split_and!; try done.
    intros ?? ?. split; [done|split; [|done]]. by intros ? ?%elem_of_nil.
  - destruct (MkdirAll _ _ _) as [[e|] w']; intros [= <-]; simpl.
    + exists [MsgFailEnv (envDirName_of env dn) e], []. rewrite app_nil_r.
      split_and!; try done.
      intros ?? ?. split; [done|split; [|by apply sublist_cons]].
      by intros ? ?%elem_of_nil.
    + exists [MsgStillCooking (envDirName_of env dn)], []. rewrite app_nil_r.
      split_and!; try done.
      intros ?? ?. split; [done|split; [|done]]. by intros ? ?%elem_of_nil.
  - intros [= <-]. exists [], []. simpl. rewrite !app_nil_r. split_and!; try done.
    intros ?? ?. split; [done|split; [|done]]. by intros ? ?%elem_of_nil.
  - intros [= <-]. simpl. exists [], [Task dn d (TWalk WStart)]. rewrite app_nil_r.
    split_and!; try done. intros ?? [-> ->]. split; [done|split; [|done]].
    by intros ? ->%list_elem_of_singleton.
  - case_decide; [|done]. intros [= <-]. exists [], []. simpl. rewrite !app_nil_r.
    split_and!; try done. intros ?? ?. split; [done|split; [|done]].
    by intros ? ?%elem_of_nil.
  - intros [= <-]. exists [MsgCompleted], []. simpl. rewrite !app_nil_r.
    split_and!; try done. intros ?? ?. split; [done|split; [|done]].
    by intros ? ?%elem_of_nil.
  - done.
Qed.

(** [main] never looks at the goroutines: with another pool it takes the
    same step. *)
Lemma main_step_ignores_pool c pool :
  main_step (with_pool c pool) =
  (λ c', with_pool c' (pool ++ drop (length (c_pool c)) (c_pool c'))) <$> main_step c.
Proof.
  unfold main_step, with_pool, with_main. simpl.
  destruct (c_main c) as [h dn sn|dn sp [|env envs]|dn sp d envs|dn sp d envs| | |];
    simpl; rewrite ?drop_all, ?app_nil_r; try done.
  - destruct (main_prefix _ _ _ _) as [[out r] w']. simpl.
    by rewrite drop_all, app_nil_r.
  - destruct (MkdirAll _ _ _) as [[e|] w']; simpl; by rewrite drop_all, app_nil_r.
  - by rewrite drop_app_length.
  - case_decide; simpl; [|done]. by rewrite drop_all, app_nil_r.
Qed.

(** ** Which goroutines there are *)






(** ** What has been reported *)





(** ** Schedules *)


Lemma halted_stuck c c' : halted c = true → reachable c c' → c' = c.
Proof.
  intros Hh [[|l sched] H]; simpl in H; [by simplify_eq|].
  unfold step in H. by rewrite Hh in H.
Qed.



Lemma step_main_eq c :
  c_panic c = false → c_main c ≠ MExit → step LMain c = main_step c.
Proof.
  intros Hp Hm. unfold step, halted. rewrite Hp. by destruct (c_main c).
Qed.


(** ** Runs of the examples *)

Lemma run_of_reachable sched w :
  is_Some (exec sched (example_init w)) → reachable (example_init w) (run_of sched w).
Proof. intros [c Hc]. exists sched. unfold run_of. by rewrite Hc. Qed.

Lemma exec_default sched c :
  is_Some (exec sched c) → exec sched c = Some (default c (exec sched c)).
Proof. by intros [c' ->]. Qed.



(** ** The goroutines started from the initial configuration *)



(** * The copies do not interfere *)

(** ** The destinations are siblings *)



Lemma sibling_prefix {A} (sp : list A) x x' : sp ++ [x] `prefix_of` sp ++ [x'] → x = x'.
Proof.
  intros H%prefix_app_inv. apply prefix_length_eq in H; [|done]. by simplify_eq.
Qed.


Lemma same_outside_refl d w : same_outside d w w.
Proof. done. Qed.






(** ** The copy alone *)








(** ** The invariant *)










(** ** One failure among the copies *)



(** * The claims of the specification *)

(** ** The copy of one destination *)

(** C1, as written, at a destination that already holds a directory: the
    copy succeeds, and the directories of the result are not those of the
    source.  The destination is merged into, not cleared. *)
Lemma copy_keeps_foreign_directories :
  let src := example_src in
  let dest := example_dest "SANDBOX_" in
  let r := Walk 10 src (walkFn src dest) merge_world in
  r.1 = Some None ∧ ¬ same_dirs src dest merge_world r.2.
Proof.
  intros src dest r. split; [vm_compute; reflexivity|]. intros H.
  destruct (proj1 (H ["old"])) as [m Hm]; [eexists; vm_compute; reflexivity|].
  assert (files merge_world !! (src ++ ["old"]) = None) as Hn
    by (vm_compute; reflexivity).
  by rewrite Hn in Hm.
Qed.

(** C1 (amended).  A copy that returns without error, into a destination
    that does not overlap the source, leaves every file of the source at the
    same relative path below the destination with the same bytes, and every
    directory of the source as a directory there.  The result is a merge:
    what differs from before is the image of a source entry (or a missing
    ancestor of the destination, now made); when nothing was below the
    destination before, the relative paths below it are exactly those of the
    source.  The bytes are all a file keeps: the visit of a file replaces
    the destination file by one with the source's bytes and the mode the
    destination file had, or 0o666 without the umask bits when it is new. *)
Theorem copy_replicates_source (src dest : path) (fuel : nat) (w w' : world) :
  ¬ comparable src dest → tree_wf src w →
  Walk fuel src (walkFn src dest) w = (Some None, w') →
  (∀ rel mode data, files w !! (src ++ rel) = Some (File mode data) →
     ∃ mode', files w' !! (dest ++ rel) = Some (File mode' data)) ∧
  (∀ rel, is_dir_at w (src ++ rel) → is_dir_at w' (dest ++ rel)) ∧
  only_images src dest w w' ∧
  (empty_below dest w →
     same_dirs src dest w w' ∧
     ∀ rel, is_Some (files w' !! (dest ++ rel)) ↔ is_Some (files w !! (src ++ rel))) ∧
  (∀ rel info w1 w2,
     IsDir info = false →
     walkFn src dest (src ++ rel) info None w1 = (None, w2) →
     ∃ smode data m,
       files w1 !! (src ++ rel) = Some (File smode data) ∧
       w2 = put (dest ++ rel) (File m data) w1 ∧
       ((∃ old, files w1 !! (dest ++ rel) = Some (File m old)) ∨
        (files w1 !! (dest ++ rel) = None ∧ m = N.ldiff mode_0666 (umask w1)))).
Proof.
  intros Hno Hwf Hrun. apply Walk_returns in Hrun.
  pose proof (walk_iter_inv src dest w Hno Hwf fuel WStart w
                (walk_inv_start src dest w)) as Hinv.
  pose proof (walk_success_src _ _ _ _ _ Hrun) as Hsrc.
  rewrite Hrun in Hinv. destruct Hinv as [(Hp & Ho & _) Hc]. simpl in Hp, Ho, Hc.
  assert (∀ rel mode data, files w !! (src ++ rel) = Some (File mode data) →
            ∃ mode', files w' !! (dest ++ rel) = Some (File mode' data)) as Hfiles.
  { intros rel mode data Hf.
    specialize (Hc (src ++ rel) (prefix_app_r _ _ _ (reflexivity _)) (λ F, F)).
    unfold copied in Hc. by rewrite Hf, rel_of_app in Hc. }
  assert (∀ rel, is_dir_at w (src ++ rel) → is_dir_at w' (dest ++ rel)) as Hdirs.
  { intros rel [m Hd].
    specialize (Hc (src ++ rel) (prefix_app_r _ _ _ (reflexivity _)) (λ F, F)).
    unfold copied in Hc. by rewrite Hd, rel_of_app in Hc. }
  split_and!; [done..| |].
  - intros Hempty.
    assert (∀ rel, is_Some (files w' !! (dest ++ rel)) → is_Some (files w !! (src ++ rel)))
      as Hback.
    { intros rel Hs. destruct (decide (rel = [])) as [->|Hne]; [by rewrite app_nil_r|].
      destruct (Ho (dest ++ rel)) as [E|[(r & Er & ?)|(Hpre & _)]].
      - rewrite E, Hempty in Hs by done. by destruct Hs.
      - by apply app_inv_head in Er as ->.
      - apply prefix_length in Hpre. rewrite length_app in Hpre.
        destruct rel; [done|simpl in Hpre; lia]. }
    split.
    + intros rel. split; [|apply Hdirs]. intros [m Hm].
      destruct (Hback rel) as [[sm data|sm] Hn]; [eauto| |by exists sm].
      apply Hfiles in Hn as [? ?]. congruence.
    + intros rel. split; [apply Hback|]. intros [[sm data|sm] Hn].
      * apply Hfiles in Hn as [? ->]. eauto.
      * destruct (Hdirs rel) as [? ->]; [by exists sm|eauto].
  - intros rel info w1 w2 Hi Hf.
    apply walkFn_file_ok in Hf; [done|done|by apply image_ne].
Qed.

Lemma copy_replicates_source_witness :
  let src := example_src in
  let dest := example_dest "SANDBOX_" in
  let w' := (Walk 10 src (walkFn src dest) ready_world).2 in
  (∀ rel mode data, files ready_world !! (src ++ rel) = Some (File mode data) →
     ∃ mode', files w' !! (dest ++ rel) = Some (File mode' data)) ∧
  same_dirs src dest ready_world w'.
Proof.
  intros src dest w'. subst w'.
  destruct (copy_replicates_source src dest 10 ready_world
              (Walk 10 src (walkFn src dest) ready_world).2) as (H1 & _ & _ & H4 & _).
  - apply (bool_decide_eq_false_1 (comparable src dest)). vm_compute. reflexivity.
  - apply tree_wfb_sound. vm_compute. reflexivity.
  - apply pair_fst_eq. vm_compute. reflexivity.
  - split; [exact H1|]. apply H4. apply empty_belowb_sound. vm_compute. reflexivity.
Defined.

(** C7, as written, when the destination lies inside the source (the
    directory to copy is the home directory, which holds
    [Desktop/Solutions]): after two steps of the walk a path below the
    source has changed. *)
Lemma copy_into_itself_changes_source :
  let src := example_home in
  let w' := (walk_iter (walkFn src nested_dest) src 2 WStart nested_world).2 in
  ¬ (∀ x, src `prefix_of` x → files w' !! x = files nested_world !! x).
Proof.
  intros src w' H. specialize (H (nested_dest ++ ["Desktop"])).
  assert (src `prefix_of` nested_dest ++ ["Desktop"]) as Hpre.
  { by exists ["Desktop"; "Solutions"; "sol"; "SANDBOX_u"; "Desktop"]. }
  apply H in Hpre.
  assert (files nested_world !! (nested_dest ++ ["Desktop"]) = None) as Hn
    by (vm_compute; reflexivity).
  assert (files w' !! (nested_dest ++ ["Desktop"]) = Some (Dir 493)) as Hy
    by (vm_compute; reflexivity).
  pose proof (eq_trans (eq_sym Hy) (eq_trans Hpre Hn)) as F. discriminate F.
Qed.

(** C7 (amended).  When the destination does not overlap the source, a
    copy, however far it has got and whether or not it has failed, has
    changed nothing below the source; every path that existed before still
    exists, with the same kind and mode; and a path that existed before is
    unchanged unless it is the image of a source entry.  The umask and the
    faults of the world are as before. *)
Theorem copy_leaves_the_rest (src dest : path) (n : nat) (w w' : world) (st : walk_state) :
  ¬ comparable src dest →
  walk_iter (walkFn src dest) src n WStart w = (st, w') →
  (∀ x, src `prefix_of` x → files w' !! x = files w !! x) ∧
  (∀ x nd, files w !! x = Some nd →
     ∃ nd', files w' !! x = Some nd' ∧ info_of nd' = info_of nd) ∧
  (∀ x, is_Some (files w !! x) →
     (¬ ∃ r, x = dest ++ r ∧ is_Some (files w !! (src ++ r))) →
     files w' !! x = files w !! x) ∧
  umask w' = umask w ∧ iofault w' = iofault w.
Proof.
  intros Hno Hrun.
  pose proof (walk_iter_frame_inv src dest w Hno n WStart w
                (frame_inv_start src dest w)) as Hinv.
  rewrite Hrun in Hinv. destruct Hinv as ((Hu & Hi & Hp) & Ho & _). simpl in *.
  split_and!; [|done| |done..].
  - intros x Hx. by apply (src_same src dest w Hno).
  - intros x [nd Hx] Hnot. destruct (Ho x) as [?|[?|(_ & _ & ?)]]; [done..|congruence].
Qed.

Lemma copy_leaves_the_rest_witness :
  let src := example_src in
  let dest := example_dest "SANDBOX_" in
  let w' := (walk_iter (walkFn src dest) src 7 WStart merge_world).2 in
  (∀ x, src `prefix_of` x → files w' !! x = files merge_world !! x) ∧
  files w' !! (dest ++ ["old"]) = files merge_world !! (dest ++ ["old"]).
Proof.
  intros src dest w'. subst w'.
  destruct (copy_leaves_the_rest src dest 7 merge_world
              (walk_iter (walkFn src dest) src 7 WStart merge_world).2
              (walk_iter (walkFn src dest) src 7 WStart merge_world).1)
    as (H1 & _ & H3 & _).
  - apply (bool_decide_eq_false_1 (comparable src dest)). vm_compute. reflexivity.
  - apply pair_eta.
  - split; [exact H1|]. apply H3; [eexists; vm_compute; reflexivity|].
    intros (r & Hr & Hs). apply app_inv_head in Hr as <-.
    assert (files merge_world !! (src ++ ["old"]) = None) as Hn
      by (vm_compute; reflexivity).
    rewrite Hn in Hs. by destruct Hs.
Defined.

(** C8, as written, on the example: the root of the source has mode
    0o700, the destination root was made with 0o755 before the copy, and it
    still has 0o755 after a copy that succeeds. *)
Lemma destination_root_keeps_its_mode :
  let src := example_src in
  let dest := example_dest "SANDBOX_" in
  let r := Walk 10 src (walkFn src dest) ready_world in
  r.1 = Some None ∧
  ¬ (∀ rel m, files ready_world !! (src ++ rel) = Some (Dir m) →
              files r.2 !! (dest ++ rel) = Some (Dir m)).
Proof.
  intros src dest r. split; [vm_compute; reflexivity|]. intros H.
  specialize (H [] 448%N).
  assert (files ready_world !! (src ++ []) = Some (Dir 448)) as Hs
    by (vm_compute; reflexivity).
  assert (files r.2 !! (dest ++ []) = Some (Dir 493)) as Hd
    by (vm_compute; reflexivity).
  pose proof (eq_trans (eq_sym Hd) (H Hs)) as F. discriminate F.
Qed.

(** C8 (amended).  Whenever the walk is inside a directory of the source
    (its frame is on the stack, so its entries are being or still to be
    visited), the corresponding directory exists below the destination, and
    so do all its ancestors.  The visit of a directory is [MkdirAll] on the
    corresponding path with the mode of the source entry: what it adds are
    the missing directories on that path, each with that mode without the
    umask bits; a directory that is already there is left as it is (also in
    its mode), and that is not an error. *)
Theorem directories_before_children (src dest : path) :
  (∀ n w st w',
     walk_iter (walkFn src dest) src n WStart w = (st, w') →
     frames_made src dest st w') ∧
  (∀ rel info w,
     IsDir info = true →
     walkFn src dest (src ++ rel) info None w = MkdirAll (dest ++ rel) (Mode info) w) ∧
  (∀ p perm w err w', MkdirAll p perm w = (err, w') → mkdir_adds p perm w w') ∧
  (∀ p perm w w',
     MkdirAll p perm w = (None, w') →
     ∃ m, files w' !! p = Some (Dir m) ∧
          (files w !! p = None → m = N.ldiff perm (umask w)) ∧
          (∀ nd, files w !! p = Some nd → nd = Dir m)) ∧
  (∀ p perm w m,
     namei (files w) [] p = inr (Dir m) → MkdirAll p perm w = (None, w)).
Proof.
  split_and!.
  - intros n w st w' Hrun.
    pose proof (walk_iter_frames_made src dest n WStart w I I) as H.
    by rewrite Hrun in H.
  - intros. by apply walkFn_dir_eq.
  - intros p perm w err w' H. unfold MkdirAll in H.
    apply MkdirAll_rec_adds in H. by rewrite reverse_involutive in H.
  - apply MkdirAll_mode.
  - apply MkdirAll_existing.
Qed.

Lemma directories_before_children_witness :
  let src := example_src in
  let dest := example_dest "SANDBOX_" in
  frames_made src dest
    (walk_iter (walkFn src dest) src 3 WStart ready_world).1
    (walk_iter (walkFn src dest) src 3 WStart ready_world).2 ∧
  (walk_iter (walkFn src dest) src 3 WStart ready_world).1 =
    WFrames [(src ++ ["b"], ["c.txt"]); (src, [])].
Proof.
  intros src dest. split; [|vm_compute; reflexivity].
  apply (proj1 (directories_before_children src dest) 3 ready_world).
  apply pair_eta.
Defined.



(** ** The orchestrator of main.go and enviorments2remote.go *)

Import Concurrent.

(** C3.  In every configuration a run can reach: no WaitGroup panic has
    occurred; the counter is the number of goroutines that have not
    returned, plus one between [wg.Add(1)] and the [go] statement; when
    [main] is past [wg.Wait] every goroutine started has returned, with or
    without an error; [wg.Wait] lets [main] pass exactly when the counter
    is zero; and a step of a goroutine changes the counter only at its
    deferred [wg.Done], by one, whatever the error is, after which the
    goroutine takes no more steps. *)
Theorem join_waits_for_all (w : world) (h dn : path) (sn : string) (c : config) :
  reachable (init w h dn sn) c →
  c_panic c = false ∧
  c_wg c = (Z.of_nat (live c) + (if c_main c is MGo _ _ _ _ then 1 else 0))%Z ∧
  (past_join (c_main c) = true → ∀ t, t ∈ c_pool c → ∃ err, t_pc t = TExit err) ∧
  (c_main c = MWait → (is_Some (step LMain c) ↔ c_wg c = 0%Z)) ∧
  (∀ i c', step (LTask i) c = Some c' →
     ∃ t t', c_pool c !! i = Some t ∧ c_pool c' !! i = Some t' ∧
       match t_pc t with
       | TWalk _ => c_wg c' = c_wg c ∧ task_exited t' = false
       | TDefer err => c_wg c' = (c_wg c - 1)%Z ∧ t_pc t' = TExit err
       | TExit _ => False
       end).
Proof.
  intros Hr. pose proof (wg_inv_reachable _ _ (wg_inv_init w h dn sn) Hr)
    as (Hp & Hwg & Hj & _).
  split_and!; [done..| | |].
  - intros Hpj t Hin. pose proof (live_zero_exited c t (Hj Hpj) Hin) as He.
    unfold task_exited in He. destruct (t_pc t); eauto; done.
  - intros Hm. rewrite step_main_eq by (done || by rewrite Hm).
    unfold main_step. rewrite Hm. case_decide; split; try done; eauto.
  - intros i c' (_ & t & t' & c1 & Hi & Ht & ->)%step_task_inv.
    apply task_step_inv in Ht as (_ & _ & _ & Hpool & Hspec).
    exists t, t'. split; [done|]. simpl. rewrite Hpool. split.
    { apply list_lookup_insert_eq. by eapply lookup_lt_Some. }
    destruct Hspec as [ws -> _ Hpc' _ _ Hwg' _|err -> Hpc' _ _ Hwg' _|err -> Hpc' _ _ Hwg' _].
    + split; [done|]. unfold task_exited. by rewrite Hpc'.
    + split; [done|]. unfold task_exited. by rewrite Hpc'.
    + done.
Qed.

Lemma join_waits_for_all_witness :
  let c := run_of (dispatch_then_copy 17 5 4 ++ [LMain]) all_readonly_world in
  c_main c = MFinal ∧ length (c_pool c) = 5%nat ∧ c_wg c = 0%Z ∧
  ∀ t, t ∈ c_pool c → ∃ err, t_pc t = TExit err.
Proof.
  intros c. split_and!; [vm_compute; reflexivity..|].
  apply (join_waits_for_all all_readonly_world example_home example_src "sol" c).
  - apply run_of_reachable, (bool_decide_unpack _). vm_compute. exact I.
  - vm_compute. reflexivity.
Defined.

(** C9.  In every configuration a run can reach: once the counter is zero
    [main] passes [wg.Wait], and from there its next step prints the
    completion message and nothing else, whatever the goroutines have
    returned; a step of [main] never prints the error of a copy (those
    lines come from the goroutines only), and it is the same step whatever
    the pool of goroutines holds: [main] does not look at them. *)
Theorem completion_message_unconditional (w : world) (h dn : path) (sn : string)
    (c : config) :
  reachable (init w h dn sn) c →
  (c_main c = MWait → c_wg c = 0%Z →
     ∃ c', step LMain c = Some c' ∧ c_main c' = MFinal ∧ c_out c' = c_out c) ∧
  (c_main c = MFinal →
     ∃ c', step LMain c = Some c' ∧ c_main c' = MExit ∧
           c_out c' = c_out c ++ [MsgCompleted] ∧
           c_world c' = c_world c ∧ c_pool c' = c_pool c) ∧
  (∀ c', step LMain c = Some c' → copy_errors (c_out c') = copy_errors (c_out c)) ∧
  (∀ pool,
     main_step (with_pool c pool) =
     (λ c', with_pool c' (pool ++ drop (length (c_pool c)) (c_pool c'))) <$> main_step c) ∧
  render MsgCompleted = "Environment setup completed successfully!".
Proof.
  intros Hr. pose proof (wg_inv_reachable _ _ (wg_inv_init w h dn sn) Hr)
    as (Hp & _).
  split_and!.
  - intros Hm Hz. rewrite step_main_eq by (done || by rewrite Hm).
    unfold main_step. rewrite Hm, decide_True by done.
    eexists. by split_and!.
  - intros Hm. rewrite step_main_eq by (done || by rewrite Hm).
    unfold main_step. rewrite Hm. eexists. by split_and!.
  - intros c' [_ Hs]%step_main_inv.
    apply main_step_effect in Hs as (lines & new & -> & Hl & _).
    unfold copy_errors in *. by rewrite omap_app, Hl, app_nil_r.
  - apply main_step_ignores_pool.
  - done.
Qed.

Lemma completion_message_unconditional_witness :
  let c := run_of (dispatch_then_copy 17 5 4 ++ [LMain]) all_readonly_world in
  (∀ t, t ∈ c_pool c → ∃ e, task_outcome t = Some (Some e)) ∧
  ∃ c', step LMain c = Some c' ∧ c_main c' = MExit ∧
        c_out c' = c_out c ++ [MsgCompleted] ∧
        c_world c' = c_world c ∧ c_pool c' = c_pool c.
Proof.
  intros c. split.
  - assert (Forall (λ t, is_Some (task_outcome t ≫= id)) (c_pool c)) as Hall
      by (apply (bool_decide_unpack _); vm_compute; exact I).
    intros t Hin. apply (proj1 (Forall_forall _ _) Hall) in Hin as [e He].
    exists e. clear -He. by destruct (task_outcome t) as [[?|]|]; simplify_eq/=.
  - apply (completion_message_unconditional all_readonly_world example_home
             example_src "sol" c).
    + apply run_of_reachable, (bool_decide_unpack _). vm_compute. exact I.
    + vm_compute. reflexivity.
Defined.

(** C10.  When the directory of an environment cannot be made, the step
    of [main] prints the failure and goes on with the environments that are
    left, in their order: no goroutine is started, the counter is not
    touched.  The sequential variant skips the environment likewise. *)
Theorem failed_destination_is_skipped (dn sp : path) (env : string) (envs : list string)
    (e : error) (w' : world) :
  (∀ c : config,
     c_main c = MLoop dn sp (env :: envs) → c_panic c = false →
     MkdirAll (envDirPath_of sp env dn) mode_0755 (c_world c) = (Some e, w') →
     ∃ c', step LMain c = Some c' ∧
           c_main c' = MLoop dn sp envs ∧
           pending_dests (c_main c') = (λ env, envDirPath_of sp env dn) <$> envs ∧
           c_pool c' = c_pool c ∧ c_wg c' = c_wg c ∧
           c_out c' = c_out c ++ [MsgFailEnv (envDirName_of env dn) e] ∧
           c_world c' = w') ∧
  (∀ c : Sequential.config,
     Sequential.c_main c = Sequential.MLoop dn sp (env :: envs) →
     MkdirAll (envDirPath_of sp env dn) mode_0755 (Sequential.c_world c) = (Some e, w') →
     Sequential.step c =
     Some {| Sequential.c_world := w';
             Sequential.c_out :=
               Sequential.c_out c ++ [MsgFailEnv (envDirName_of env dn) e];
             Sequential.c_main := Sequential.MLoop dn sp envs |}).
Proof.
  split.
  - intros c Hm Hp Hmk. rewrite step_main_eq by (done || by rewrite Hm).
    unfold main_step. rewrite Hm. unfold envDirPath_of in Hmk. rewrite Hmk.
    eexists. split; [done|]. by split_and!.
  - intros c Hm Hmk. unfold Sequential.step. rewrite Hm.
    unfold envDirPath_of in Hmk. by rewrite Hmk.
Qed.

Lemma failed_destination_is_skipped_witness :
  let c := run_of (replicate 4 LMain) blocked_world in
  let e := PathError "mkdir" (example_dest "DEV_") ENOTDIR in
  c_main c = MLoop example_src example_solution ["DEV_"; "STAGE_"; "PREPROD_"; "PROD_"] ∧
  ∃ c', step LMain c = Some c' ∧
        c_main c' = MLoop example_src example_solution ["STAGE_"; "PREPROD_"; "PROD_"] ∧
        pending_dests (c_main c') =
          (λ env, envDirPath_of example_solution env example_src)
            <$> ["STAGE_"; "PREPROD_"; "PROD_"] ∧
        c_pool c' = c_pool c ∧ c_wg c' = c_wg c ∧
        c_out c' = c_out c ++ [MsgFailEnv "DEV_proj" e] ∧
        c_world c' = c_world c.
Proof.
  intros c e. split; [vm_compute; reflexivity|].
  apply (proj1 (failed_destination_is_skipped example_src example_solution "DEV_"
                  ["STAGE_"; "PREPROD_"; "PROD_"] e (c_world c)) c).
  - vm_compute. reflexivity.
  - vm_compute. reflexivity.
  - apply (MkdirAll_blocked _ _ _ 420%N []). vm_compute. reflexivity.
Defined.










(** * Further properties of the programs *)

(** ** The repositories of enviorments2remote.go *)

Lemma lower_y c : Remote.lower c = "y"%char ↔ c = "y"%char ∨ c = "Y"%char.
Proof.
  split.
  - destruct c as [[] [] [] [] [] [] [] []]; vm_compute; intros H;
      first [by left | by right | discriminate H].
  - by intros [-> | ->].
Qed.

Lemma ToLower_y s : Remote.ToLower s = "y" ↔ s = "y" ∨ s = "Y".
Proof.
  split.
  - destruct s as [|c [|c' s']]; simpl; intros H; try discriminate H.
    injection H as H. apply lower_y in H as [-> | ->]; auto.
  - by intros [-> | ->].
Qed.

(** The answer counts as yes exactly when it is the letter y, small or
    capital; one question is asked and printed, and nothing else happens. *)
Lemma promptForGitRepo_yes o envDirName s :
  ((Remote.promptForGitRepo o envDirName s).1 = true ↔
     Remote.answer o (Remote.asked s) = "y" ∨ Remote.answer o (Remote.asked s) = "Y") ∧
  Remote.asked (Remote.promptForGitRepo o envDirName s).2 = S (Remote.asked s) ∧
  Remote.out (Remote.promptForGitRepo o envDirName s).2 =
    Remote.out s ++ [Remote.AskRepo envDirName] ∧
  Remote.requests (Remote.promptForGitRepo o envDirName s).2 = Remote.requests s ∧
  Remote.commands (Remote.promptForGitRepo o envDirName s).2 = Remote.commands s.
Proof.
  split_and!; try done. simpl. rewrite bool_decide_eq_true. apply ToLower_y.
Qed.

(** Without a token no request is sent.  With one, exactly one request is
    sent, a POST that carries the token; the call succeeds exactly when the
    server answers 201, and only then is the repository announced.  No git
    command is run and no question asked. *)
Lemma createGitHubRepo_spec o envDirName s :
  let r := Remote.createGitHubRepo o envDirName s in
  (Remote.token o = "" → r = (Some Remote.TokenMissing, s)) ∧
  (Remote.token o ≠ "" →
     Remote.requests r.2 =
       Remote.requests s ++ [Remote.repo_request (Remote.token o) envDirName]) ∧
  (r.1 = None ↔
     Remote.token o ≠ "" ∧ Remote.response o (length (Remote.requests s)) = inr 201%nat) ∧
  Remote.out r.2 =
    Remote.out s ++ (if r.1 is None then [Remote.RepoCreated envDirName] else []) ∧
  Remote.commands r.2 = Remote.commands s ∧ Remote.asked r.2 = Remote.asked s.
Proof.
  unfold Remote.createGitHubRepo. simpl.
  destruct (decide (Remote.token o = "")) as [Ht|Ht]; simpl.
  - rewrite app_nil_r. split_and!; try done. split; [done|]. by intros [? _].
  - destruct (Remote.response o _) as [e|code] eqn:Hr; simpl.
    + rewrite app_nil_r. split_and!; try done. split; [done|]. by intros [_ ?].
    + destruct (decide (code = 201%nat)) as [->|Hc]; simpl.
      * by split_and!.
      * rewrite app_nil_r. split_and!; try done. split; [done|].
        intros [_ [=]]. done.
Qed.

Lemma and_then_run_git o step dir args k s :
  Remote.and_then (Remote.run_git o step dir args) k s =
  let s1 := {| Remote.asked := Remote.asked s; Remote.requests := Remote.requests s;
               Remote.commands :=
                 Remote.commands s ++ [{| Remote.cmd_dir := dir; Remote.cmd_args := args |}];
               Remote.out := Remote.out s |} in
  match Remote.run o (length (Remote.commands s)) with
  | Some e => (Some (Remote.GitFailed step e), s1)
  | None => k s1
  end.
Proof.
  unfold Remote.and_then, Remote.run_git. by destruct (Remote.run o _).
Qed.

(** The commands a call of [setupGitForEnv] has run are the first [k] of
    its five, in their order, for the [k] it got to: it stops at the first
    command that fails and returns that failure, and it succeeds, and says
    so, exactly when all five have run without error.  The first three run
    in the directory named like the environment below the working
    directory of the process, the last two in the environment directory of
    the solution. *)
Lemma setupGitForEnv_spec o envDirName solutionPath s :
  let r := Remote.setupGitForEnv o envDirName solutionPath s in
  let n := length (Remote.commands s) in
  ∃ k, (1 ≤ k ≤ 5)%nat ∧
    Remote.commands r.2 =
      Remote.commands s ++ take k (Remote.git_commands envDirName solutionPath) ∧
    (∀ i, (i < k - 1)%nat → Remote.run o (n + i) = None) ∧
    match r.1 with
    | None =>
        k = 5%nat ∧ Remote.run o (n + 4) = None ∧
        Remote.out r.2 = Remote.out s ++ [Remote.Pushed (Remote.remoteURL_of envDirName)]
    | Some f =>
        ∃ step e, Remote.git_steps !! (k - 1)%nat = Some step ∧
                  Remote.run o (n + (k - 1)) = Some e ∧
                  f = Remote.GitFailed step e ∧ Remote.out r.2 = Remote.out s
    end ∧
    Remote.requests r.2 = Remote.requests s ∧ Remote.asked r.2 = Remote.asked s.
Proof.
  intros r n. subst r. unfold Remote.setupGitForEnv.
  rewrite and_then_run_git. cbv zeta. fold n.
  destruct (Remote.run o n) as [e0|] eqn:H0.
  { exists 1%nat. simpl. split_and!; try done; try lia.
    exists Remote.GitInit, e0. rewrite Nat.add_0_r. by split_and!. }
  rewrite and_then_run_git. cbv zeta. cbn [Remote.commands]. rewrite length_app. fold n.
  cbn [length].
  destruct (Remote.run o (n + 1)) as [e1|] eqn:H1.
  { exists 2%nat. simpl. rewrite <- !app_assoc. split_and!; try done; try lia.
    - intros i Hi. assert (i = 0%nat) as -> by lia. by rewrite Nat.add_0_r.
    - exists Remote.GitAdd, e1. by split_and!. }
  rewrite and_then_run_git. cbv zeta. cbn [Remote.commands]. rewrite !length_app. fold n.
  cbn [length]. replace (n + 1 + 1)%nat with (n + 2)%nat by lia.
  destruct (Remote.run o (n + 2)) as [e2|] eqn:H2.
  { exists 3%nat. simpl. rewrite <- !app_assoc. split_and!; try done; try lia.
    - intros i Hi. assert (i = 0 ∨ i = 1)%nat as [-> | ->] by lia;
        by rewrite ?Nat.add_0_r.
    - exists Remote.GitCommit, e2. by split_and!. }
  rewrite and_then_run_git. cbv zeta. cbn [Remote.commands]. rewrite !length_app. fold n.
  cbn [length]. replace (n + 1 + 1 + 1)%nat with (n + 3)%nat by lia.
  destruct (Remote.run o (n + 3)) as [e3|] eqn:H3.
  { exists 4%nat. simpl. rewrite <- !app_assoc. split_and!; try done; try lia.
    - intros i Hi. assert (i = 0 ∨ i = 1 ∨ i = 2)%nat as [-> | [-> | ->]] by lia;
        by rewrite ?Nat.add_0_r.
    - exists Remote.GitRemote, e3. by split_and!. }
  rewrite and_then_run_git. cbv zeta. cbn [Remote.commands]. rewrite !length_app. fold n.
  cbn [length]. replace (n + 1 + 1 + 1 + 1)%nat with (n + 4)%nat by lia.
  destruct (Remote.run o (n + 4)) as [e4|] eqn:H4.
  { exists 5%nat. simpl. rewrite <- !app_assoc. split_and!; try done; try lia.
    - intros i Hi. assert (i = 0 ∨ i = 1 ∨ i = 2 ∨ i = 3)%nat
        as [-> | [-> | [-> | ->]]] by lia; by rewrite ?Nat.add_0_r.
    - exists Remote.GitPush, e4. by split_and!. }
  exists 5%nat. simpl. rewrite <- !app_assoc. split_and!; try done; try lia.
  intros i Hi. assert (i = 0 ∨ i = 1 ∨ i = 2 ∨ i = 3)%nat
    as [-> | [-> | [-> | ->]]] by lia; by rewrite ?Nat.add_0_r.
Qed.

(** *** The loop over the environments *)

Lemma created_snoc l x :
  length (Remote.created (l ++ [x])) =
  (length (Remote.created l) + (if x is Remote.RepoCreated _ then 1 else 0))%nat.
Proof.
  unfold Remote.created. rewrite omap_app, length_app. by destruct x.
Qed.

(** One turn of the loop, for an answer that is not yes. *)
Lemma main_repos_no o dn sp env envs s :
  (Remote.promptForGitRepo o (envDirName_of env dn) s).1 = false →
  Remote.main_repos o dn sp (env :: envs) s =
  Remote.main_repos o dn sp envs (Remote.promptForGitRepo o (envDirName_of env dn) s).2.
Proof. simpl. intros H. simpl in H. by rewrite H. Qed.

(** One turn of the loop, for the answer yes. *)
Lemma main_repos_yes o dn sp env envs s :
  let name := envDirName_of env dn in
  let s1 := (Remote.promptForGitRepo o name s).2 in
  let c := Remote.createGitHubRepo o name s1 in
  let g := Remote.setupGitForEnv o name sp c.2 in
  (Remote.promptForGitRepo o name s).1 = true →
  Remote.main_repos o dn sp (env :: envs) s =
  Remote.main_repos o dn sp envs
    match c.1 with
    | Some f => Remote.print (Remote.ErrorCreating f) c.2
    | None =>
        match g.1 with
        | Some f => Remote.print (Remote.ErrorSetup name f) g.2
        | None => g.2
        end
    end.
Proof.
  intros name s1 c g H. subst c g s1 name. simpl in *. rewrite H.
  destruct (Remote.createGitHubRepo _ _ _) as [[f|] s2]; [done|]. simpl.
  by destruct (Remote.setupGitForEnv _ _ _ _) as [[f|] s3].
Qed.

(** Whatever is answered, whatever the server and git do: the loop asks
    one question for each environment; it sends at most one request for
    each; a repository is announced only after its request; and git runs
    only for a repository that has been created, at least one command and
    at most five for each.  Without a token nothing is requested and
    nothing is run. *)
Lemma main_repos_counts o dn sp envs s :
  let s' := Remote.main_repos o dn sp envs s in
  let dq := (length (Remote.requests s') - length (Remote.requests s))%nat in
  let dg := (length (Remote.commands s') - length (Remote.commands s))%nat in
  let dc := (length (Remote.created (Remote.out s'))
             - length (Remote.created (Remote.out s)))%nat in
  Remote.asked s' = (Remote.asked s + length envs)%nat ∧
  (length (Remote.requests s) ≤ length (Remote.requests s'))%nat ∧
  (length (Remote.commands s) ≤ length (Remote.commands s'))%nat ∧
  (length (Remote.created (Remote.out s)) ≤ length (Remote.created (Remote.out s')))%nat ∧
  (dc ≤ dq)%nat ∧ (dq ≤ length envs)%nat ∧ (dc ≤ dg)%nat ∧ (dg ≤ 5 * dc)%nat ∧
  (Remote.token o = "" → dq = 0%nat ∧ dg = 0%nat).
Proof.
  revert s. induction envs as [|env envs IH]; intros s.
  { simpl. split_and!; try lia; intros _; lia. }
  set (name := envDirName_of env dn).
  destruct (promptForGitRepo_yes o name s) as (_ & Ha & Ho & Hq & Hg).
  apply (f_equal (λ l, length (Remote.created l))) in Ho. rewrite created_snoc in Ho.
  apply (f_equal length) in Hq, Hg.
  destruct (Remote.promptForGitRepo o name s).1 eqn:Hyes.
  - rewrite main_repos_yes by done. fold name.
    set (s1 := (Remote.promptForGitRepo o name s).2) in *.
    destruct (createGitHubRepo_spec o name s1) as (Ht & Hrq & Hok & Hco & Hcg & Hca).
    apply (f_equal length) in Hcg.
    set (c := Remote.createGitHubRepo o name s1) in *.
    destruct (setupGitForEnv_spec o name sp c.2)
      as (k & Hk & Hgc & _ & Hres & Hgq & Hga).
    apply (f_equal length) in Hgc, Hgq. rewrite length_app, length_take in Hgc.
    change (length (Remote.git_commands name sp)) with 5%nat in Hgc.
    set (g := Remote.setupGitForEnv o name sp c.2) in *.
    destruct c.1 as [f|] eqn:Hc;
      apply (f_equal (λ l, length (Remote.created l))) in Hco;
      rewrite ?app_nil_r, ?created_snoc in Hco.
    + pose proof (IH (Remote.print (Remote.ErrorCreating f) c.2)) as IH'.
      cbv zeta in IH'. cbn [Remote.print Remote.asked Remote.requests Remote.commands
                             Remote.out] in IH'.
      rewrite created_snoc in IH'.
      destruct IH' as (I1 & I2 & I3 & I4 & I5 & I6 & I7 & I8 & I9).
      destruct (decide (Remote.token o = "")) as [Hte|Hte].
      * assert (Remote.requests c.2 = Remote.requests s1) as Hrs
          by (by rewrite (f_equal snd (Ht Hte))).
        apply (f_equal length) in Hrs. specialize (I9 Hte).
        cbn [length] in *. split_and!; try lia; intros _; lia.
      * specialize (Hrq Hte). apply (f_equal length) in Hrq.
        rewrite length_app in Hrq. cbn [length] in *. split_and!; try lia; done.
    + destruct (proj1 Hok eq_refl) as [Hte _].
      specialize (Hrq Hte). apply (f_equal length) in Hrq. rewrite length_app in Hrq.
      assert (length (Remote.created (Remote.out g.2))
              = length (Remote.created (Remote.out c.2))) as Hc3.
      { destruct g.1; [by destruct Hres as (? & ? & _ & _ & _ & ->)|].
        destruct Hres as (_ & _ & ->). rewrite created_snoc. lia. }
      destruct g.1 as [f|] eqn:Hgr.
      * pose proof (IH (Remote.print (Remote.ErrorSetup name f) g.2)) as IH'.
        cbv zeta in IH'. cbn [Remote.print Remote.asked Remote.requests Remote.commands
                               Remote.out] in IH'.
        rewrite created_snoc in IH'.
        destruct IH' as (I1 & I2 & I3 & I4 & I5 & I6 & I7 & I8 & I9).
        cbn [length] in *. split_and!; try lia; done.
      * pose proof (IH g.2) as IH'. cbv zeta in IH'.
        destruct IH' as (I1 & I2 & I3 & I4 & I5 & I6 & I7 & I8 & I9).
        cbn [length] in *. split_and!; try lia; done.
  - rewrite main_repos_no by done. fold name.
    pose proof (IH (Remote.promptForGitRepo o name s).2) as IH'. cbv zeta in IH'.
    destruct IH' as (I1 & I2 & I3 & I4 & I5 & I6 & I7 & I8 & I9).
    cbn [length] in *. split_and!; try lia; intros Hte; specialize (I9 Hte); lia.
Qed.

(** When no answer is yes the loop only asks: its five questions are all
    it prints, and it sends and runs nothing. *)
Lemma main_repos_all_no o dn sp envs s :
  (∀ i, (i < length envs)%nat →
     Remote.answer o (Remote.asked s + i) ≠ "y" ∧ Remote.answer o (Remote.asked s + i) ≠ "Y") →
  Remote.main_repos o dn sp envs s =
  {| Remote.asked := Remote.asked s + length envs;
     Remote.requests := Remote.requests s; Remote.commands := Remote.commands s;
     Remote.out := Remote.out s ++ ((λ env, Remote.AskRepo (envDirName_of env dn)) <$> envs) |}.
Proof.
  revert s. induction envs as [|env envs IH]; intros s Hno.
  { simpl. rewrite Nat.add_0_r, app_nil_r. by destruct s. }
  assert ((Remote.promptForGitRepo o (envDirName_of env dn) s).1 = false) as Hp.
  { destruct (Remote.promptForGitRepo _ _ _).1 eqn:E; [|done].
    apply (proj1 (promptForGitRepo_yes o _ s)) in E.
    destruct (Hno 0%nat) as [H1 H2]; [simpl; lia|]. rewrite Nat.add_0_r in H1, H2.
    by destruct E. }
  rewrite main_repos_no by done. rewrite IH.
  - simpl. f_equal; [lia|]. by rewrite <- app_assoc.
  - intros i Hi. simpl. rewrite <- Nat.add_succ_r. apply Hno. simpl. lia.
Qed.

Lemma main_repos_all_no_witness :
  Remote.main_repos Remote.declining example_src example_solution environments
    Remote.start =
  {| Remote.asked := 5; Remote.requests := []; Remote.commands := [];
     Remote.out := (λ env, Remote.AskRepo (envDirName_of env example_src))
                     <$> environments |}.
Proof.
  rewrite (main_repos_all_no Remote.declining example_src example_solution
             environments Remote.start); [done|].
  intros i _. by split.
Defined.

(** ** [main] before its loop *)

Lemma exec_reachable sched c0 :
  is_Some (exec sched c0) → reachable c0 (default c0 (exec sched c0)).
Proof. intros [c Hc]. exists sched. by rewrite Hc. Qed.


Lemma main_prefix_missing h dn sn w :
  namei (files w) [] dn = inl ENOENT →
  main_prefix h dn sn w = (([PromptDirectory; PromptSolution; MsgNoDirectory], None), w).
Proof.
  intros H. unfold main_prefix, bind, ret, Stat. cbv beta iota zeta. by rewrite H.
Qed.

(** When the directory to copy does not exist, the program prints its two
    questions and the message that the directory does not exist, and that
    is all it ever does: nothing is created, no goroutine is started, no
    completion message follows.  The same holds for the sequential
    variant. *)
Lemma missing_directory_stops_main (w : world) (h dn : path) (sn : string) :
  namei (files w) [] dn = inl ENOENT →
  (∀ c, reachable (init w h dn sn) c →
     c = init w h dn sn ∨
     c = {| c_world := w; c_out := [PromptDirectory; PromptSolution; MsgNoDirectory];
            c_wg := 0; c_panic := false; c_main := MExit; c_pool := [] |}) ∧
  (∀ c, Sequential.reachable (Sequential.init w h dn sn) c →
     c = Sequential.init w h dn sn ∨
     c = {| Sequential.c_world := w;
            Sequential.c_out := [PromptDirectory; PromptSolution; MsgNoDirectory];
            Sequential.c_main := Sequential.MExit |}).
Proof.
  intros Hm. pose proof (main_prefix_missing h dn sn w Hm) as Hp. split.
  - intros c [->|Hr]%reachable_init_cases; [by left|right].
    unfold after_prefix in Hr. rewrite Hp in Hr. by apply halted_stuck in Hr.
  - assert (Sequential.step (Sequential.init w h dn sn) =
            Some {| Sequential.c_world := w;
                    Sequential.c_out := [PromptDirectory; PromptSolution; MsgNoDirectory];
                    Sequential.c_main := Sequential.MExit |}) as Hs.
    { unfold Sequential.step. simpl. by rewrite Hp. }
    intros c [[|[|n]] Hn]; simpl in Hn; [left; by simplify_eq|..];
      rewrite Hs in Hn; simpl in Hn; [right; by simplify_eq|done].
Qed.

Lemma missing_directory_stops_main_witness :
  let c0 := init example_world example_home ["nowhere"] "sol" in
  let c := default c0 (exec [LMain] c0) in
  c_main c = MExit ∧ c_world c = example_world ∧ c_pool c = [] ∧
  c_out c = [PromptDirectory; PromptSolution; MsgNoDirectory].
Proof.
  intros c0 c.
  destruct (proj1 (missing_directory_stops_main example_world example_home
                     ["nowhere"] "sol" ltac:(vm_compute; reflexivity)) c) as [H|H].
  - apply exec_reachable, (bool_decide_unpack _). vm_compute. exact I.
  - exfalso. apply (f_equal c_main) in H. vm_compute in H. discriminate H.
  - by rewrite H.
Defined.



(** ** Edge cases of [copyDirectory] *)

Lemma namei_parent (m : gmap path node) p c n :
  namei m [] (p ++ [c]) = inr n →
  ∃ pm, namei m [] p = inr (Dir pm) ∧ perm_x pm = true ∧ m !! (p ++ [c]) = Some n.
Proof.
  rewrite namei_snoc. destruct (namei m [] p) as [e|[fm fd|pm]]; [done..|].
  destruct (perm_x pm) eqn:Hx; [|done]. simpl.
  destruct (m !! (p ++ [c])) as [n'|]; [|done]. intros [= ->]. eauto.
Qed.

Lemma Create_on_directory dest w dm :
  namei (files w) [] dest = inr (Dir dm) →
  Create dest w = (Err (PathError "open" dest EISDIR), w).
Proof.
  intros Hd. destruct (decide (dest = [])) as [->|Hne]; [done|].
  destruct (exists_last Hne) as (p & c & ->).
  apply namei_parent in Hd as (pm & Hp & Hx & Hl).
  unfold Create. rewrite parent_snoc, Hp, Hx, Hl. simpl. by destruct (p ++ [c]).
Qed.

(** When the "directory" to copy is a regular file that can be read, the
    copy to a destination directory fails at once: the file would have to
    be created at the path of the destination directory itself.  Nothing
    is changed. *)
Lemma copy_of_regular_file_fails (src dest : path) (w : world) (m dm : N)
    (data : list Byte.byte) (fuel : nat) :
  namei (files w) [] src = inr (File m data) → perm_r m = true →
  namei (files w) [] dest = inr (Dir dm) →
  Walk (S fuel) src (walkFn src dest) w =
    (Some (Some (PathError "open" dest EISDIR)), w).
Proof.
  intros Hs Hr Hd. apply Walk_returns. simpl. unfold bind at 1.
  assert (visit (walkFn src dest) src [] w =
          (WReturn (Some (PathError "open" dest EISDIR)), w)) as ->.
  { unfold visit, bind, ret, Lstat, lstat. rewrite Hs. simpl.
    pose proof (Rel_app src []) as HR. rewrite app_nil_r in HR.
    unfold walkFn. rewrite HR. simpl. unfold bind, ret, Open, Join.
    rewrite Hs. simpl. rewrite Hr, app_nil_r.
    by rewrite (Create_on_directory dest w dm Hd). }
  apply walk_iter_return.
Qed.

Lemma copy_of_regular_file_fails_witness :
  (Walk 3 (example_src ++ ["a.txt"]) (walkFn (example_src ++ ["a.txt"]) example_solution)
     ready_world).1 = Some (Some (PathError "open" example_solution EISDIR)).
Proof.
  rewrite (copy_of_regular_file_fails (example_src ++ ["a.txt"]) example_solution
             ready_world 420 493 (bytes "hello") 2); [done|..];
    vm_compute; reflexivity.
Defined.

(** *** The error of [filepath.Rel] never occurs *)

Lemma MkdirAll_rec_error rp perm w e w' :
  MkdirAll_rec rp perm w = (Some e, w') → ∃ op p eno, e = PathError op p eno.
Proof.
  revert w e w'. induction rp as [|c rp IH]; intros w e w'; rewrite MkdirAll_rec_eq.
  - destruct (namei _ _ _) as [eno|n].
    + destruct (Mkdir _ _ _) as [[e1|] w2] eqn:Em; [|done].
      unfold Mkdir in Em. simpl in Em. simplify_eq.
      destruct (lstat w2 _) as [dir|]; [destruct (IsDir dir)|]; intros; simplify_eq; eauto.
    + destruct (node_is_dir n); intros; simplify_eq; eauto.
  - destruct (namei _ _ _) as [eno|n].
    + destruct (MkdirAll_rec rp perm w) as [[e1|] w1] eqn:Er.
      { intros; simplify_eq. by eapply IH. }
      destruct (Mkdir _ _ _) as [[e1|] w2] eqn:Em; [|done].
      assert (∃ op p eno, e1 = PathError op p eno) as He1.
      { unfold Mkdir in Em. destruct (reverse (c :: rp)); [simplify_eq; eauto|].
        destruct (namei _ _ _) as [?|[? ?|pm]]; simplify_eq; eauto.
        destruct (negb (perm_x pm)); simplify_eq; eauto.
        destruct (files w1 !! _); simplify_eq; eauto.
        destruct (perm_w pm); simplify_eq; eauto. }
      destruct (lstat w2 _) as [dir|]; [destruct (IsDir dir)|]; intros; by simplify_eq.
    + destruct (node_is_dir n); intros; simplify_eq; eauto.
Qed.

Lemma walkFn_error src dest p info err w e w' :
  src `prefix_of` p →
  (∀ e0, err = Some e0 → ∃ op q eno, e0 = PathError op q eno) →
  walkFn src dest p info err w = (Some e, w') → ∃ op q eno, e = PathError op q eno.
Proof.
  intros [rel ->] Herr. unfold walkFn. destruct err as [e0|].
  { intros [= <- <-]. by apply Herr. }
  rewrite Rel_app. destruct (IsDir info).
  - unfold MkdirAll. apply MkdirAll_rec_error.
  - unfold bind, ret, Open, Join.
    destruct (namei (files w) [] (src ++ rel)) as [eno|n]; [intros; simplify_eq; eauto|].
    destruct (perm_r (node_mode n)); [|intros; simplify_eq; eauto].
    destruct (Create (dest ++ rel) w) as [[h|e1] w1] eqn:Ec.
    + unfold Copy. destruct (files w1 !! _) as [[? data|?]|]; [|intros; simplify_eq; eauto..].
      destruct (fault_limit w1 h (src ++ rel)) as [[k e1]|] eqn:Ef.
      * assert (∃ op q eno, e1 = PathError op q eno) as He1.
        { unfold fault_limit in Ef.
          destruct (iofault w1 !! _), (iofault w1 !! h); simplify_eq; eauto.
          case_decide; simplify_eq; eauto. }
        case_decide; destruct (files w1 !! h) as [[? ?|?]|]; intros; simplify_eq; eauto.
      * destruct (files w1 !! h) as [[? ?|?]|]; intros; simplify_eq; eauto.
    + intros [= <- <-]. unfold Create in Ec. destruct (dest ++ rel); [simplify_eq; eauto|].
      destruct (namei _ _ _) as [?|[? ?|pm]]; simplify_eq; eauto.
      destruct (negb (perm_x pm)); simplify_eq; eauto.
      destruct (files w !! _) as [[fm ?|?]|]; simplify_eq; eauto.
      * destruct (perm_r fm && perm_w fm); simplify_eq; eauto.
      * destruct (perm_w pm); simplify_eq; eauto.
Qed.

Lemma visit_error src dest p stk w e :
  src `prefix_of` p →
  (visit (walkFn src dest) p stk w).1 = WReturn (Some e) →
  ∃ op q eno, e = PathError op q eno.
Proof.
  intros Hp. unfold visit, bind, ret, Lstat, readDirNames, lstat. cbv beta iota zeta.
  destruct (namei (files w) [] p) as [eno|n] eqn:En; simpl.
  { unfold walkFn. simpl. intros [= <-]. eauto. }
  destruct (node_is_dir n) eqn:Ed.
  - destruct n as [|mode]; [done|]. simpl. rewrite En.
    destruct (perm_r mode).
    + match goal with |- context [walkFn ?a ?b ?c ?i ?e w] =>
        destruct (walkFn a b c i e w) as [[e'|] w'] eqn:Ef end; simpl; [|done].
      intros [= <-]. eapply walkFn_error in Ef; [done..|]. intros; simplify_eq.
    + unfold walkFn. simpl. intros [= <-]. eauto.
  - match goal with |- context [walkFn ?a ?b ?c ?i ?e w] =>
      destruct (walkFn a b c i e w) as [[e'|] w'] eqn:Ef end; simpl; [|done].
    intros [= <-]. eapply walkFn_error in Ef; [done..|]. intros; simplify_eq.
Qed.

(** However far a copy has got, if it has returned an error, the error
    comes from the file system, with its operation and path: it is never
    the error of [filepath.Rel], since every path the walk hands to the
    walk function lies below the root of the walk. *)
Lemma walk_never_RelError (src dest : path) (n : nat) (w : world) (e : error) :
  (walk_iter (walkFn src dest) src n WStart w).1 = WReturn (Some e) →
  ∃ op q eno, e = PathError op q eno.
Proof.
  enough (∀ st w,
            ws_under src st →
            (∀ e0, st = WReturn (Some e0) → ∃ op q eno, e0 = PathError op q eno) →
            (walk_iter (walkFn src dest) src n st w).1 = WReturn (Some e) →
            ∃ op q eno, e = PathError op q eno) as H.
  { apply H; [done|]. intros; simplify_eq. }
  induction n as [|n IH]; intros st w' Hu Hst; simpl.
  { intros ->. by apply Hst. }
  unfold bind. pose proof (walk_step_under src dest st w' Hu) as Hu'.
  destruct (walk_step (walkFn src dest) src st w') as [st1 w1] eqn:Es. simpl in Hu'.
  apply IH; [done|]. intros e0 ->.
  destruct st as [|[|[d [|nm ns]] stk]|err]; simpl in Es; unfold ret in Es.
  - eapply (visit_error src dest src [] w'); [done|]. by rewrite Es.
  - by simplify_eq.
  - by simplify_eq.
  - eapply (visit_error src dest (d ++ [nm]) _ w'); [|by rewrite Es].
    apply prefix_app_r. apply (Hu d (nm :: ns)). left.
  - simplify_eq. by apply Hst.
Qed.

Lemma walk_never_RelError_witness :
  ∃ op q eno,
    PathError "read" (example_src ++ ["a.txt"]) EIO = PathError op q eno.
Proof.
  apply (walk_never_RelError example_src (example_dest "SANDBOX_") 2 fault_world).
  vm_compute. reflexivity.
Defined.

(** *** A read-only directory in the source *)

Lemma namei_child (m : gmap path node) p c pm :
  namei m [] p = inr (Dir pm) → perm_x pm = true →
  namei m [] (p ++ [c]) = match m !! (p ++ [c]) with
                          | Some n => inr n
                          | None => inl ENOENT
                          end.
Proof. intros Hp Hx. by rewrite namei_snoc, Hp, Hx. Qed.

Lemma snoc_match {A B} (p : list A) (c : A) (a b : B) :
  match p ++ [c] with [] => a | _ :: _ => b end = b.
Proof. by destruct p. Qed.

(** [MkdirAll] of a missing name in a directory that exists. *)
Lemma MkdirAll_child p c perm w pm :
  namei (files w) [] p = inr (Dir pm) → perm_x pm = true →
  files w !! (p ++ [c]) = None →
  MkdirAll (p ++ [c]) perm w =
  if perm_w pm then (None, put (p ++ [c]) (Dir (N.ldiff perm (umask w))) w)
  else (Some (PathError "mkdir" (p ++ [c]) EACCES), w).
Proof.
  intros Hp Hx Hn. unfold MkdirAll. rewrite reverse_snoc, MkdirAll_rec_eq.
  rewrite reverse_cons, reverse_involutive, (namei_child _ _ _ _ Hp Hx), Hn.
  rewrite MkdirAll_rec_eq, reverse_involutive, Hp. simpl.
  unfold Mkdir. rewrite snoc_match, parent_snoc, Hp, Hx, Hn. simpl.
  destruct (perm_w pm); [done|]. unfold lstat.
  by rewrite (namei_child _ _ _ _ Hp Hx), Hn.
Qed.

(** [Create] of a missing name in a directory that exists. *)
Lemma Create_child p c w pm :
  namei (files w) [] p = inr (Dir pm) → perm_x pm = true →
  files w !! (p ++ [c]) = None →
  Create (p ++ [c]) w =
  if perm_w pm
  then (Ok (p ++ [c]), put (p ++ [c]) (File (N.ldiff mode_0666 (umask w)) []) w)
  else (Err (PathError "open" (p ++ [c]) EACCES), w).
Proof.
  intros Hp Hx Hn. unfold Create.
  by rewrite snoc_match, parent_snoc, Hp, Hx, Hn.
Qed.

Lemma visit_directory src dest p stk w m ns w' :
  namei (files w) [] p = inr (Dir m) → perm_r m = true →
  children (files w) p = ns →
  walkFn src dest p (info_of (Dir m)) None w = (None, w') →
  visit (walkFn src dest) p stk w = (WFrames ((p, ns) :: stk), w').
Proof.
  intros Hp Hr Hc Hf. unfold visit, bind, ret, Lstat, readDirNames, lstat.
  cbv beta iota zeta. rewrite Hp. simpl. rewrite Hp, Hr, Hf, Hc. done.
Qed.

Lemma visit_fails src dest p stk w n e w' :
  namei (files w) [] p = inr n → perm_r (node_mode n) = true →
  walkFn src dest p (info_of n) None w = (Some e, w') →
  visit (walkFn src dest) p stk w = (WReturn (Some e), w').
Proof.
  intros Hp Hr Hf. unfold visit, bind, ret, Lstat, readDirNames, lstat.
  cbv beta iota zeta. rewrite Hp. simpl. destruct n as [fm fd|dm]; simpl in *.
  - by rewrite Hf.
  - by rewrite Hp, Hr, Hf.
Qed.

(** A directory of the source that its owner cannot write to, once the
    umask is taken off, cannot be copied when it has an entry: the walk
    makes the directory below the destination with that mode, and the
    next step, which has to put the first entry into it, is refused.  The
    walk returns that error; the directory just made stays. *)
Lemma readonly_directory_blocks_copy (src dest rel : path) (n c : string)
    (ns cs : list string) (stk : list (path * list string)) (w : world)
    (m pm : N) (nd : node) :
  let d := src ++ rel ++ [n] in
  let image := dest ++ rel ++ [n] in
  ¬ comparable src dest →
  namei (files w) [] d = inr (Dir m) → perm_r m = true → perm_x m = true →
  children (files w) d = c :: cs →
  files w !! (d ++ [c]) = Some nd → perm_r (node_mode nd) = true →
  namei (files w) [] (dest ++ rel) = inr (Dir pm) → perm_x pm = true → perm_w pm = true →
  files w !! image = None → files w !! (image ++ [c]) = None →
  perm_x (N.ldiff m (umask w)) = true → perm_w (N.ldiff m (umask w)) = false →
  walk_iter (walkFn src dest) src 2 (WFrames ((src ++ rel, n :: ns) :: stk)) w =
    (WReturn (Some (PathError (if node_is_dir nd then "mkdir" else "open")
                      (image ++ [c]) EACCES)),
     put image (Dir (N.ldiff m (umask w))) w).
Proof.
  intros d image. subst d image. rewrite !(app_assoc src), !(app_assoc dest).
  set (d := (src ++ rel) ++ [n]). set (image := (dest ++ rel) ++ [n]).
  intros Hno Hd Hr Hx Hc Hnd Hrc Hp Hpx Hpw Hi Hic Hmx Hmw.
  set (m' := N.ldiff m (umask w)) in *. set (w1 := put image (Dir m') w).
  assert (src `prefix_of` d) as Hsd by (unfold d; rewrite <- app_assoc; by apply prefix_app_r).
  assert (dest `prefix_of` image) as Hdi
    by (unfold image; rewrite <- app_assoc; by apply prefix_app_r).
  destruct Hsd as [rd Hrd]. destruct Hdi as [ri Hri].
  assert (ri = rd) as ->.
  { unfold d, image in *. rewrite <- app_assoc in Hrd, Hri.
    apply app_inv_head in Hrd, Hri. congruence. }
  assert (walkFn src dest d (info_of (Dir m)) None w = (None, w1)) as Hf1.
  { rewrite Hrd, walkFn_dir_eq by done. rewrite <- Hri. simpl. unfold image.
    by rewrite (MkdirAll_child _ _ _ _ pm), Hpw. }
  assert (∀ q, src `prefix_of` q → namei (files w1) [] q = namei (files w) [] q) as Hsrc.
  { intros q Hq. apply namei_insert_below. intros Hpre. apply Hno.
    eapply prefix_comparable; [done|]. etrans; [|exact Hpre]. by exists rd. }
  assert (namei (files w1) [] image = inr (Dir m')) as Himg.
  { unfold image. rewrite (namei_child _ _ _ pm); [| |done].
    - fold image. simpl. by rewrite lookup_insert_eq.
    - rewrite <- Hp. apply namei_insert_below. apply prefix_snoc_not. }
  assert (files w1 !! (image ++ [c]) = None) as Hic1.
  { simpl. rewrite lookup_insert_ne; [done|]. intros E.
    apply (f_equal length) in E. rewrite length_app in E. simpl in E. lia. }
  assert (namei (files w1) [] (d ++ [c]) = inr nd) as Hdc.
  { rewrite Hsrc by (apply prefix_app_r; by exists rd).
    by rewrite (namei_child _ _ _ m), Hnd. }
  assert (walkFn src dest (d ++ [c]) (info_of nd) None w1 =
          (Some (PathError (if node_is_dir nd then "mkdir" else "open")
                   (image ++ [c]) EACCES), w1)) as Hf2.
  { rewrite Hrd, <- app_assoc. unfold walkFn. rewrite Rel_app.
    unfold Join. rewrite !app_assoc, <- Hri, <- Hrd. simpl. destruct (node_is_dir nd).
    - by rewrite (MkdirAll_child _ _ _ _ m'), Hmw.
    - unfold bind, ret, Open. rewrite Hdc, Hrc.
      by rewrite (Create_child _ _ _ m'), Hmw. }
  simpl. unfold bind, ret. fold d.
  rewrite (visit_directory src dest d _ w m (c :: cs) w1) by done.
  cbn [walk_step]. by rewrite (visit_fails src dest (d ++ [c]) _ w1 nd _ w1 Hdc Hrc Hf2).
Qed.

Lemma readonly_directory_blocks_copy_witness :
  walk_iter (walkFn example_src (example_dest "SANDBOX_")) example_src 2
    (WFrames [(example_src, ["b"])]) locked_world =
  (WReturn (Some (PathError "open" (example_dest "SANDBOX_" ++ ["b"; "c.txt"]) EACCES)),
   put (example_dest "SANDBOX_" ++ ["b"]) (Dir 365) locked_world).
Proof.
  apply (readonly_directory_blocks_copy example_src (example_dest "SANDBOX_") []
           "b" "c.txt" [] [] [] locked_world 365 493 (File 420 (bytes "world")));
    try (vm_compute; reflexivity).
  apply (bool_decide_eq_false_1 (comparable example_src (example_dest "SANDBOX_"))).
  vm_compute. reflexivity.
Defined.

(** * The copies return *)

Local Open Scope nat_scope.

(** ** Counting the entries below a directory *)

Lemma sum_list_with_le {A} (f g : A → nat) (l : list A) :
  (∀ x, x ∈ l → f x ≤ g x) → sum_list_with f l ≤ sum_list_with g l.
Proof.
  induction l as [|x l IH]; intros H; simpl; [done|].
  assert (f x ≤ g x) by (apply H; left).
  assert (sum_list_with f l ≤ sum_list_with g l) by (apply IH; intros; apply H; by right).
  lia.
Qed.

Lemma sum_list_with_plus {A} (f g : A → nat) (l : list A) :
  sum_list_with (λ x, f x + g x) l = sum_list_with f l + sum_list_with g l.
Proof. induction l as [|x l IH]; simpl; [done|]. rewrite IH. lia. Qed.

Lemma sum_list_with_swap {A B} (a : A → B → nat) (l : list A) (k : list B) :
  sum_list_with (λ x, sum_list_with (a x) k) l =
  sum_list_with (λ y, sum_list_with (λ x, a x y) l) k.
Proof.
  induction l as [|x l IH]; simpl.
  - induction k as [|y k IHk]; simpl; [done|]. by rewrite <- IHk.
  - by rewrite IH, sum_list_with_plus.
Qed.

Lemma sum_list_with_mul {A} (f : A → nat) (c : nat) (l : list A) :
  sum_list_with (λ x, c * f x) l = c * sum_list_with f l.
Proof. induction l as [|x l IH]; simpl; [lia|]. rewrite IH. lia. Qed.

(** An entry lies below at most one of the names of a directory. *)
Lemma below_one_child (p q : path) (cs : list string) :
  NoDup cs →
  sum_list_with (λ c, if decide ((p ++ [c]) `prefix_of` q) then 1 else 0) cs
  ≤ (if decide (p `prefix_of` q ∧ q ≠ p) then 1 else 0).
Proof.
  induction cs as [|c cs IH]; intros Hn; simpl; [lia|].
  apply NoDup_cons in Hn as [Hc Hn]. specialize (IH Hn).
  destruct (decide ((p ++ [c]) `prefix_of` q)) as [Hq|Hq]; [|lia].
  rewrite (decide_True (P := p `prefix_of` q ∧ q ≠ p)).
  - assert (sum_list_with (λ c0, if decide ((p ++ [c0]) `prefix_of` q) then 1 else 0) cs
            = 0) as ->; [|lia].
    clear IH Hn. induction cs as [|c' cs IH]; simpl; [done|].
    rewrite IH by (intros ?; apply Hc; by right).
    rewrite decide_False; [done|]. intros Hq'.
    destruct (prefix_weak_total _ _ _ Hq Hq') as [H|H]; apply sibling_prefix in H;
      subst; apply Hc; left.
  - split; [by eapply prefix_app_l|]. intros ->. by apply (prefix_snoc_not p c).
Qed.

Lemma weight_children (w : world) (p : path) (cs : list string) :
  is_Some (files w !! p) → NoDup cs →
  1 + sum_list_with (λ c, weight w (p ++ [c])) cs ≤ weight w p.
Proof.
  intros Hp Hn. unfold weight. rewrite sum_list_with_swap.
  apply key_in_world in Hp. apply list_elem_of_In in Hp.
  induction (map_to_list (files w)).*1 as [|q K IH]; [by apply elem_of_nil in Hp|].
  simpl. pose proof (below_one_child p q cs Hn) as Hq.
  assert (sum_list_with (λ y, sum_list_with
            (λ x, if decide ((p ++ [x]) `prefix_of` y) then 1 else 0) cs) K
          ≤ sum_list_with (λ q, if decide (p `prefix_of` q) then 1 else 0) K) as HK.
  { apply sum_list_with_le. intros y _. pose proof (below_one_child p y cs Hn) as Hy.
    destruct (decide (p `prefix_of` y ∧ y ≠ p)) as [[? ?]|?];
      [rewrite decide_True by done|]; lia. }
  apply elem_of_cons in Hp as [<-|Hp].
  - rewrite (decide_False (P := p `prefix_of` p ∧ p ≠ p)) in Hq by (by intros [_ ?]).
    rewrite decide_True by done. lia.
  - specialize (IH Hp).
    destruct (decide (p `prefix_of` q ∧ q ≠ p)) as [[? ?]|?];
      [rewrite decide_True by done|]; lia.
Qed.

Lemma weight_pos (w : world) (p : path) : is_Some (files w !! p) → 1 ≤ weight w p.
Proof.
  intros Hp. pose proof (weight_children w p [] Hp (NoDup_nil_2)) as H. simpl in H. lia.
Qed.

(** ** A step of the walk brings it nearer to its end *)

Lemma visit_shapes src dest p stk w :
  let r := visit (walkFn src dest) p stk w in
  (∃ e, r.1 = WReturn (Some e)) ∨
  (is_Some (files w !! p) ∧
   (r.1 = WFrames stk ∨ r.1 = WFrames ((p, children (files w) p) :: stk))).
Proof.
  unfold visit, bind, ret, Lstat, readDirNames, lstat. cbv beta iota zeta.
  destruct (namei (files w) [] p) as [eno|n] eqn:En; simpl.
  { left. unfold walkFn. simpl. eauto. }
  pose proof En as En'. apply namei_inr in En as [En _]. simpl in En.
  destruct (node_is_dir n) eqn:Ed.
  - destruct n as [|mode]; [done|]. simpl. rewrite En'.
    destruct (perm_r mode).
    + match goal with |- context [walkFn ?a ?b ?c ?i ?e w] =>
        destruct (walkFn a b c i e w) as [[e'|] w'] eqn:Ef end; simpl;
        [left; eauto|].
      right. split; [eauto|]. by right.
    + left. unfold walkFn. simpl. eauto.
  - match goal with |- context [walkFn ?a ?b ?c ?i ?e w] =>
      destruct (walkFn a b c i e w) as [[e'|] w'] eqn:Ef end; simpl;
      [left; eauto|].
    right. split; [eauto|]. by left.
Qed.

Lemma stack_cost_cons w d ns stk :
  stack_cost w ((d, ns) :: stk) = S (names_cost w d ns) + stack_cost w stk.
Proof. done. Qed.

Lemma names_cost_cons w d n ns :
  names_cost w d (n :: ns) = 3 * weight w (d ++ [n]) + names_cost w d ns.
Proof. done. Qed.

Lemma names_cost_children w p cs :
  is_Some (files w !! p) → NoDup cs → names_cost w p cs + 3 ≤ 3 * weight w p.
Proof.
  intros Hs Hn. pose proof (weight_children w p cs Hs Hn) as H.
  unfold names_cost. rewrite sum_list_with_mul. lia.
Qed.

(** The visit of an entry that is part of the tree measured. *)
Lemma visit_measure src dest w0 p stk w :
  src `prefix_of` p →
  (∀ x, src `prefix_of` x → files w !! x = files w0 !! x) →
  walk_measure w0 src (visit (walkFn src dest) p stk w).1 + 1
  ≤ S (stack_cost w0 stk) + 3 * weight w0 p.
Proof.
  intros Hp Hsame.
  destruct (visit_shapes src dest p stk w) as [[e ->]|[Hs [-> | ->]]];
    cbn [walk_measure].
  - lia.
  - rewrite Hsame in Hs by done. pose proof (weight_pos w0 p Hs). lia.
  - rewrite Hsame in Hs by done.
    rewrite (children_agree (files w) (files w0)).
    2:{ intros n. apply Hsame. by apply prefix_app_r. }
    pose proof (names_cost_children w0 p _ Hs (NoDup_children (files w0) p)) as H.
    rewrite stack_cost_cons. lia.
Qed.

Lemma walk_step_decreases src dest w0 st w :
  ws_under src st →
  (∀ x, src `prefix_of` x → files w !! x = files w0 !! x) →
  walk_result st = None →
  walk_measure w0 src (walk_step (walkFn src dest) src st w).1 < walk_measure w0 src st.
Proof.
  intros Hu Hsame Hr.
  destruct st as [|[|[d [|n ns]] stk]|err]; cbn [walk_step walk_measure ret fst];
    [| | | |done].
  - pose proof (visit_measure src dest w0 src [] w (reflexivity _) Hsame) as H.
    change (stack_cost w0 []) with 0 in H. lia.
  - lia.
  - rewrite stack_cost_cons. lia.
  - assert (src `prefix_of` d ++ [n]) as Hp.
    { apply prefix_app_r. apply (Hu d (n :: ns)). left. }
    pose proof (visit_measure src dest w0 (d ++ [n]) ((d, ns) :: stk) w Hp Hsame) as H.
    rewrite !stack_cost_cons, ?names_cost_cons in *. lia.
Qed.

(** ** A copy alone returns *)

Lemma walk_returns_within src dest w0 k st w :
  ¬ comparable src dest → frame_inv src dest w0 st w →
  walk_measure w0 src st ≤ k →
  is_Some (walk_result (walk_iter (walkFn src dest) src k st w).1).
Proof.
  intros Hno. revert st w. induction k as [|k IH]; intros st w Hinv Hm.
  { destruct st as [|stk|err]; simpl in *; [lia..|eauto]. }
  destruct (walk_result st) as [r|] eqn:Hr.
  { destruct st; try done. rewrite walk_iter_return. simpl. eauto. }
  cbn [walk_iter]. unfold bind.
  pose proof (walk_step_frame_inv src dest w0 Hno st w Hinv) as Hinv'.
  pose proof Hinv as (_ & Ho & Hu).
  pose proof (walk_step_decreases src dest w0 st w Hu
                (λ x Hx, src_same src dest w0 Hno w x Ho Hx) Hr) as Hd.
  destruct (walk_step (walkFn src dest) src st w) as [st' w'].
  apply IH; [done|]. simpl in Hd. lia.
Qed.

(** A copy into a destination that does not overlap the source returns,
    with or without an error, within three steps for each entry of the
    source tree and three more. *)
Lemma copy_returns (src dest : path) (w : world) (fuel : nat) :
  ¬ comparable src dest → 3 * weight w src + 3 ≤ fuel →
  is_Some (Walk fuel src (walkFn src dest) w).1.
Proof.
  intros Hno Hf. rewrite Walk_eq. simpl.
  apply (walk_returns_within src dest w); [done|apply frame_inv_start|done].
Qed.

Lemma copy_returns_witness :
  is_Some (Walk 15 example_src (walkFn example_src (example_dest "SANDBOX_")) fault_world).1.
Proof.
  apply copy_returns.
  - apply (bool_decide_eq_false_1 (comparable example_src (example_dest "SANDBOX_"))).
    vm_compute. reflexivity.
  - vm_compute. lia.
Defined.

(** ** The program can always finish *)




Section finish.
Context (w : world) (h dn : path) (sn : string) (out : list line) (sp : path) (w0 : world).
Hypothesis Hpre : main_prefix h dn sn w = ((out, Some sp), w0).
Hypothesis Hno : ¬ comparable dn sp.







End finish.



(** ** The sequential variant ends *)

Section sequential.
Context (w : world) (h dn : path) (sn : string) (out : list line) (sp : path) (w0 : world).
Hypothesis Hpre : main_prefix h dn sn w = ((out, Some sp), w0).
Hypothesis Hno : ¬ comparable dn sp.




End sequential.


